(** * Supervised processes: the [binary] package

    A shallow embedding of  common/go/binary  (the [Binary] process handle
    and the [Worker] group supervisor) and the properties of its lifecycle.

    Conventions of the embedding.
    - Go strings are byte strings: [string].
    - A Go [error] value is a term of [error]; every [fmt.Errorf] call site
      of the package has its own constructor, which keeps the wrapped cause.
    - A slice whose nil-ness is observable (the environment list) is an
      [option (list _)], [None] being the nil slice; the other slices are
      lists.
    - A closed channel is a boolean ([done]); a [sync.Once] is a value of
      [OnceState].
    - Goroutines are agents of an interleaving semantics: a step function
      [step] moves one agent by one statement, a schedule is a list of
      moves, and the answers of the operating system (pipe creation, spawn,
      dial, exit status) come from a [Scenario] and from the moves.
      The memory is sequentially consistent.
    - The log sink is the trace: a [Printf] of the package is an [EvLog]
      event.  The two output scanners only forward the lines of the child
      to the sink and are left out.
    - A callback is opaque: calling it is an event of the trace, and it
      does not call back into the handle that calls it. *)

From Stdlib Require Import ZArith Lia Bool Ascii String.
From stdpp Require Import base list strings.

Set Default Proof Using "Type".

(** ** Errors, statuses and run-time panics *)

(** How the child ended, as [os.ProcessState] reports it. *)
Inductive WaitStatus :=
| Exited (code : Z)      (* the child called exit(code) *)
| Signaled (sig : Z).    (* the child was killed by signal sig *)

#[local] Set Warnings "-register-all".
Inductive error :=
| ErrSys (msg : string)           (* an error returned by the host: os, net, exec *)
| ErrExit (st : WaitStatus)       (* *exec.ExitError, from cmd.Wait *)
| ErrGetwd (e : error)            (* "could not determine current working directory: %w" *)
| ErrLookPath (e : error)         (* "could not look up binary path: %w" *)
| ErrDeref (e : error)            (* "could not dereference symbolic link: %w" *)
| ErrStdoutPipe (e : error)       (* "could not listen to stdout pipe: %w" *)
| ErrStderrPipe (e : error)       (* "could not listen to stderr pipe: %w" *)
| ErrStart (e : error)            (* "could not start process: %w" *)
| ErrPort (name : string) (port : Z) (e : option error)
                                  (* "failed to open [%s]'s port [%d]: %w" *)
| ErrFatal (name : string) (e : error)
                                  (* "[%s] encountered a fatal error: %w" *)
| ErrUnexpectedExit (name : string).
                                  (* "[%s] exited unexpectedly" *)

Inductive panic :=
| IndexOutOfRange (index len : nat)   (* runtime error: index out of range *)
| PanicError (e : error).             (* panic(err) *)

(** A call that returns [(value, error)]. *)
Inductive result (A : Type) :=
| Ok (a : A)
| Err (e : error).
Arguments Ok {A} a.
Arguments Err {A} e.

(** A call that returns [(value, error)] or panics. *)
Inductive outcome (A : Type) :=
| Return (a : A)
| Failure (e : error)
| Panics (p : panic).
Arguments Return {A} a.
Arguments Failure {A} e.
Arguments Panics {A} p.

(** ** The [Binary] struct *)

Inductive OnceState :=
| OnceFresh     (* Do has not been called *)
| OnceHeld      (* the one call of the function is in progress *)
| OnceDone.     (* the function has returned *)

(** [exec.Cmd], the fields the package reads or writes. *)
Record Cmd := mkCmd {
  cmd_Path : string;
  cmd_Args : list string;
  cmd_Env : option (list string);
  cmd_Process : bool;                       (* Process != nil *)
  cmd_ProcessState : option WaitStatus      (* nil until Wait returns *)
}.

(** A callback is a closure; the handle only stores and calls it. *)
Definition callback := nat.

Record Binary := mkBinary {
  name : string;
  path : string;
  port : Z;
  cmd : option Cmd;
  env : option (list string);
  args : list string;
  job : bool;
  done : bool;                              (* the channel is closed *)
  exitCallbacks : list callback;
  errorCallbacks : list callback;
  exiting : bool;
  terminateOnce : OnceState
}.

Definition portCheckWaitTime : Z := 2 * 1000000000.   (* 2 * time.Second, in ns *)
Definition portCheckMaxAttempts : nat := 40.

(** ** Path resolution *)

Module Path.

Definition PathSeparator : ascii := "/"%char.
Definition ModeSymlink : Z := Z.shiftl 1 27.

(** What the host answers: [os.Lstat] (the mode bits, or an error),
    [os.Readlink], [os.Getwd], [exec.LookPath], and the library function
    [path.Join]. *)
Record Host := mkHost {
  os_Lstat : string -> result Z;
  os_Readlink : string -> result string;
  os_Getwd : result string;
  exec_LookPath : string -> result string;
  path_Join : string -> string -> string
}.

(** [fi.Mode()&os.ModeSymlink == os.ModeSymlink] after a successful Lstat. *)
Definition isSymlink (h : Host) (p : string) : bool :=
  match os_Lstat h p with
  | Ok mode => Z.eqb (Z.land mode ModeSymlink) ModeSymlink
  | Err _ => false
  end.

(** The loop of [dereferenceLinks]; [None] when the fuel runs out. *)
Fixpoint dereferenceLinks (h : Host) (fuel : nat) (p : string)
  : option (result string) :=
  match fuel with
  | O => None
  | S fuel' =>
    if isSymlink h p then
      match os_Readlink h p with
      | Ok p' => dereferenceLinks h fuel' p'
      | Err e => Some (Err e)
      end
    else Some (Ok p)
  end.

(** [strings.ContainsRune] at a rune below 0x80: a byte search. *)
Fixpoint ContainsRune (s : string) (r : ascii) : bool :=
  match s with
  | EmptyString => false
  | String c s' => if Ascii.eqb c r then true else ContainsRune s' r
  end.

Definition lookupPath (h : Host) (fuel : nat) (filename : string)
  : option (outcome string) :=
  match filename with
  | EmptyString => Some (Panics (IndexOutOfRange 0 0))
  | String c _ =>
    if Ascii.eqb c PathSeparator then Some (Return filename)
    else if ContainsRune filename PathSeparator then
      match os_Getwd h with
      | Err e => Some (Failure (ErrGetwd e))
      | Ok dir => Some (Return (path_Join h dir filename))
      end
    else
      match exec_LookPath h filename with
      | Err e => Some (Failure (ErrLookPath e))
      | Ok binaryPath =>
        match dereferenceLinks h fuel binaryPath with
        | None => None
        | Some (Err e) => Some (Failure (ErrDeref e))
        | Some (Ok realPath) => Some (Return realPath)
        end
      end
  end.

Definition New (h : Host) (fuel : nat) (name path : string)
           (args : list string) : option (outcome Binary) :=
  match lookupPath h fuel path with
  | None => None
  | Some (Panics p) => Some (Panics p)
  | Some (Failure e) => Some (Failure e)
  | Some (Return realPath) =>
    Some (Return {| name := name; path := realPath; port := 0; cmd := None;
                    env := None; args := args; job := false; done := false;
                    exitCallbacks := []; errorCallbacks := [];
                    exiting := false; terminateOnce := OnceFresh |})
  end.

Definition MustNew (h : Host) (fuel : nat) (name path : string)
           (args : list string) : option (outcome Binary) :=
  match New h fuel name path args with
  | Some (Failure e) => Some (Panics (PanicError e))
  | r => r
  end.

(** [filename[0] == os.PathSeparator] on a non-empty name. *)
Definition absolute (filename : string) : bool :=
  match filename with
  | EmptyString => false
  | String c _ => Ascii.eqb c PathSeparator
  end.

(** [q] is reached from [p] by reading [n] links, each one a symbolic
    link that [os.Readlink] resolves. *)
Inductive chain (h : Host) : nat -> string -> string -> Prop :=
| chain_here p : chain h 0 p p
| chain_link n p p' q :
    isSymlink h p = true -> os_Readlink h p = Ok p' ->
    chain h n p' q -> chain h (S n) p q.

(** The errors that [New] can return for [filename]: that of [os.Getwd]
    for a name with a separator; for a bare name that of [exec.LookPath],
    or that of [os.Readlink] on a link reached from the path found. *)
Inductive failure_cause (h : Host) (filename : string) : error -> Prop :=
| cause_getwd e :
    ContainsRune filename PathSeparator = true -> os_Getwd h = Err e ->
    failure_cause h filename (ErrGetwd e)
| cause_lookpath e :
    ContainsRune filename PathSeparator = false ->
    exec_LookPath h filename = Err e ->
    failure_cause h filename (ErrLookPath e)
| cause_readlink binaryPath n q e :
    ContainsRune filename PathSeparator = false ->
    exec_LookPath h filename = Ok binaryPath ->
    chain h n binaryPath q -> isSymlink h q = true -> os_Readlink h q = Err e ->
    failure_cause h filename (ErrDeref e).

End Path.

(** ** Builder methods of [Binary] *)

Definition set_port (v : Z) (b : Binary) : Binary :=
  mkBinary (name b) (path b) v (cmd b) (env b) (args b) (job b) (done b)
           (exitCallbacks b) (errorCallbacks b) (exiting b) (terminateOnce b).
Definition set_cmd (v : option Cmd) (b : Binary) : Binary :=
  mkBinary (name b) (path b) (port b) v (env b) (args b) (job b) (done b)
           (exitCallbacks b) (errorCallbacks b) (exiting b) (terminateOnce b).
Definition set_env (v : option (list string)) (b : Binary) : Binary :=
  mkBinary (name b) (path b) (port b) (cmd b) v (args b) (job b) (done b)
           (exitCallbacks b) (errorCallbacks b) (exiting b) (terminateOnce b).
Definition set_job (v : bool) (b : Binary) : Binary :=
  mkBinary (name b) (path b) (port b) (cmd b) (env b) (args b) v (done b)
           (exitCallbacks b) (errorCallbacks b) (exiting b) (terminateOnce b).
Definition set_done (v : bool) (b : Binary) : Binary :=
  mkBinary (name b) (path b) (port b) (cmd b) (env b) (args b) (job b) v
           (exitCallbacks b) (errorCallbacks b) (exiting b) (terminateOnce b).
Definition set_exitCallbacks (v : list callback) (b : Binary) : Binary :=
  mkBinary (name b) (path b) (port b) (cmd b) (env b) (args b) (job b) (done b)
           v (errorCallbacks b) (exiting b) (terminateOnce b).
Definition set_errorCallbacks (v : list callback) (b : Binary) : Binary :=
  mkBinary (name b) (path b) (port b) (cmd b) (env b) (args b) (job b) (done b)
           (exitCallbacks b) v (exiting b) (terminateOnce b).
Definition set_exiting (v : bool) (b : Binary) : Binary :=
  mkBinary (name b) (path b) (port b) (cmd b) (env b) (args b) (job b) (done b)
           (exitCallbacks b) (errorCallbacks b) v (terminateOnce b).
Definition set_terminateOnce (v : OnceState) (b : Binary) : Binary :=
  mkBinary (name b) (path b) (port b) (cmd b) (env b) (args b) (job b) (done b)
           (exitCallbacks b) (errorCallbacks b) (exiting b) v.

(** [append(s, x)] on a slice that may be nil. *)
Definition append {A : Type} (s : option (list A)) (x : A) : option (list A) :=
  match s with
  | None => Some [x]
  | Some l => Some (l ++ [x])
  end.

Definition Name (b : Binary) : string := name b.
Definition AsJob (b : Binary) : Binary := set_job true b.
Definition WithPort (p : Z) (b : Binary) : Binary := set_port p b.
Definition WithEnv (key value : string) (b : Binary) : Binary :=
  set_env (append (env b) (key +:+ "=" +:+ value)) b.
Definition OnError (cb : callback) (b : Binary) : Binary :=
  set_errorCallbacks (errorCallbacks b ++ [cb]) b.
Definition OnExit (cb : callback) (b : Binary) : Binary :=
  set_exitCallbacks (exitCallbacks b ++ [cb]) b.

(** A call of a builder method, and a chain of calls
    [b.M1(...).M2(...)...]. *)
Inductive Builder :=
| CallAsJob
| CallWithPort (p : Z)
| CallWithEnv (key value : string)
| CallOnError (cb : callback)
| CallOnExit (cb : callback).

Definition call (b : Binary) (m : Builder) : Binary :=
  match m with
  | CallAsJob => AsJob b
  | CallWithPort p => WithPort p b
  | CallWithEnv key value => WithEnv key value b
  | CallOnError cb => OnError cb b
  | CallOnExit cb => OnExit cb b
  end.

Definition chained (ms : list Builder) (b : Binary) : Binary := fold_left call ms b.

(** What a chain of calls asks for. *)
Definition asks_job (ms : list Builder) : bool :=
  existsb (fun m => match m with CallAsJob => true | _ => false end) ms.
Definition ports_of (ms : list Builder) : list Z :=
  flat_map (fun m => match m with CallWithPort p => [p] | _ => [] end) ms.
Definition entries_of (ms : list Builder) : list string :=
  flat_map (fun m => match m with
                     | CallWithEnv key value => [key +:+ "=" +:+ value]
                     | _ => []
                     end) ms.
Definition error_callbacks_of (ms : list Builder) : list callback :=
  flat_map (fun m => match m with CallOnError cb => [cb] | _ => [] end) ms.
Definition exit_callbacks_of (ms : list Builder) : list callback :=
  flat_map (fun m => match m with CallOnExit cb => [cb] | _ => [] end) ms.

(** ** The life of one process: [Run], [die], [Exit] and the exit watcher *)

Module Proc.

Definition SIGTERM : Z := 15.

Inductive LogMsg :=
| LogDying (e : error)          (* "dying: %v" *)
| LogDied                       (* "died" *)
| LogExitingGracefully          (* "exiting gracefully" *)
| LogExitedGracefully           (* "exited gracefully" *)
| LogCouldNotExit (e : error)   (* "Could not exit process: %v" *)
| LogJobCompleted.              (* "job completed" *)

Inductive Event :=
| EvLog (m : LogMsg)
| EvTick (d : Z)                          (* a receive from ticker.C *)
| EvDial (port : Z) (e : option error)    (* net.Dial("tcp", "localhost:port") *)
| EvSignal (sig : Z)                      (* Process.Signal returned nil *)
| EvExitCallback (cb : callback)
| EvErrorCallback (cb : callback) (e : error).

(** The child as the operating system sees it. *)
Inductive Phase :=
| PNone                     (* nothing was spawned *)
| PAlive
| PZombie (st : WaitStatus) (* ended, not yet waited for *)
| PReaped (st : WaitStatus).

(** The answers of the host to the calls of [Run]. *)
Record Scenario := mkScenario {
  sc_environ : list string;         (* os.Environ() of the host program *)
  sc_stdoutPipe : option error;     (* the error of cmd.StdoutPipe() *)
  sc_stderrPipe : option error;     (* the error of cmd.StderrPipe() *)
  sc_start : option error;          (* the error of cmd.Start() *)
  sc_dial : nat -> option error     (* the error of the i-th net.Dial *)
}.

(** Where a caller of [terminateOnce.Do] stands. *)
Inductive OncePc :=
| OEnter        (* before Do *)
| OSetExiting   (* Exit: b.exiting = true *)
| OCheck        (* if b.isRunning() *)
| OSignal       (* terminate: Process.Signal(SIGTERM) *)
| OWaitDone     (* terminate: <-b.done *)
| OReturned.    (* Do has returned *)

Inductive Termination :=
| ByDie (e : error)
| ByExit.

Inductive DieSite := AtStdout | AtStderr | AtStart | AtPort.

(** Where the caller of [Run] stands. *)
Inductive RunPc :=
| RCommand                              (* b.cmd = exec.Command(...); b.cmd.Env = b.env *)
| RStdout                               (* redirectOutput(StdoutPipe) *)
| RStderr                               (* redirectOutput(StderrPipe) *)
| RStart                                (* b.cmd.Start() *)
| RGo                                   (* go func() { ... }() *)
| RPort                                 (* if b.port != 0 *)
| RLoop (i : nat) (err : option error)  (* i < portCheckMaxAttempts; <-ticker.C *)
| RDial (i : nat) (err : option error)  (* conn, err = net.Dial(...) *)
| RDie (site : DieSite) (e : error) (o : OncePc)   (* b.die(e) *)
| RJob                                  (* if b.job *)
| RWaitDone                             (* <-b.done *)
| RReturned.

(** Where the exit watcher stands. *)
Inductive WatchPc :=
| WNone                           (* the goroutine was not created *)
| WWait                           (* err := b.cmd.Wait() *)
| WClassify (err : option error)  (* err != nil && !b.exiting *)
| WClose                          (* the deferred close(b.done) *)
| WDone.

Record Sys := mkSys {
  bin : Binary;
  phase : Phase;
  childEnv : list string;       (* the environment the child was given *)
  runner : RunPc;
  watcher : WatchPc;
  callers : list OncePc;        (* the goroutines that call Exit() *)
  trace : list Event            (* oldest first *)
}.

Inductive Move :=
| MRun                          (* the caller of Run *)
| MWatch                        (* the exit watcher *)
| MExit (i : nat)               (* the i-th caller of Exit *)
| MChildEnds (st : WaitStatus). (* the child ends *)

Definition with_bin (f : Binary -> Binary) (s : Sys) : Sys :=
  mkSys (f (bin s)) (phase s) (childEnv s) (runner s) (watcher s) (callers s) (trace s).
Definition set_phase (v : Phase) (s : Sys) : Sys :=
  mkSys (bin s) v (childEnv s) (runner s) (watcher s) (callers s) (trace s).
Definition set_childEnv (v : list string) (s : Sys) : Sys :=
  mkSys (bin s) (phase s) v (runner s) (watcher s) (callers s) (trace s).
Definition set_runner (v : RunPc) (s : Sys) : Sys :=
  mkSys (bin s) (phase s) (childEnv s) v (watcher s) (callers s) (trace s).
Definition set_watcher (v : WatchPc) (s : Sys) : Sys :=
  mkSys (bin s) (phase s) (childEnv s) (runner s) v (callers s) (trace s).
Definition set_callers (v : list OncePc) (s : Sys) : Sys :=
  mkSys (bin s) (phase s) (childEnv s) (runner s) (watcher s) v (trace s).
Definition emit (evs : list Event) (s : Sys) : Sys :=
  mkSys (bin s) (phase s) (childEnv s) (runner s) (watcher s) (callers s) (trace s ++ evs).

(** [ProcessState.Exited()]: the child ended by exiting, not by a signal. *)
Definition ps_Exited (st : WaitStatus) : bool :=
  match st with Exited _ => true | Signaled _ => false end.

(** The error of [cmd.Wait()]: nil exactly for exit status 0. *)
Definition waitError (st : WaitStatus) : option error :=
  match st with
  | Exited 0 => None
  | _ => Some (ErrExit st)
  end.

(** The environment of the child of a command: [cmd.Env], or the
    environment of the host program when [cmd.Env] is nil (os/exec). *)
Definition environ (sc : Scenario) (c : Cmd) : list string :=
  match cmd_Env c with
  | None => sc_environ sc
  | Some l => l
  end.

Definition isRunning (b : Binary) : bool :=
  match cmd b with
  | None => false
  | Some c =>
    cmd_Process c &&
    match cmd_ProcessState c with
    | None => true
    | Some st => negb (ps_Exited st)
    end
  end.

Definition runExitCallbacks (b : Binary) : list Event :=
  map EvExitCallback (exitCallbacks b).

Definition runErrorCallbacks (b : Binary) (err : error) : list Event :=
  map (fun cb => EvErrorCallback cb err) (errorCallbacks b).

(** One statement of [terminateOnce.Do(f)], [f] being the function of
    [die] or of [Exit]; [None] when the caller is blocked (on the Once,
    or on the channel) or has returned. *)
Definition once_step (k : Termination) (o : OncePc) (s : Sys)
  : option (OncePc * Sys) :=
  match o with
  | OEnter =>
    match terminateOnce (bin s) with
    | OnceFresh =>
      Some (match k with ByExit => OSetExiting | ByDie _ => OCheck end,
            with_bin (set_terminateOnce OnceHeld) s)
    | OnceHeld => None
    | OnceDone => Some (OReturned, s)
    end
  | OSetExiting => Some (OCheck, with_bin (set_exiting true) s)
  | OCheck =>
    let s1 := match k with ByDie e => emit [EvLog (LogDying e)] s | ByExit => s end in
    if isRunning (bin s) then
      Some (OSignal,
            match k with ByExit => emit [EvLog LogExitingGracefully] s1 | ByDie _ => s1 end)
    else
      Some (OReturned,
            with_bin (set_terminateOnce OnceDone)
              (match k with ByDie _ => emit [EvLog LogDied] s1 | ByExit => s1 end))
  | OSignal =>
    match phase s with
    | PNone => None
    | PAlive | PZombie _ => Some (OWaitDone, emit [EvSignal SIGTERM] s)
    | PReaped _ =>
      Some (OWaitDone,
            emit [EvLog (LogCouldNotExit (ErrSys "os: process already finished"))] s)
    end
  | OWaitDone =>
    if done (bin s) then
      Some (OReturned,
            with_bin (set_terminateOnce OnceDone)
              (emit [EvLog match k with ByDie _ => LogDied | ByExit => LogExitedGracefully end] s))
    else None
  | OReturned => None
  end.

Definition after_die (site : DieSite) : RunPc :=
  match site with
  | AtPort => RJob          (* waitForPort returns into Run *)
  | _ => RReturned          (* b.die(...); return *)
  end.

Definition runner_step (sc : Scenario) (s : Sys) : option Sys :=
  let b := bin s in
  match runner s with
  | RCommand =>
    Some (set_runner RStdout
            (with_bin (set_cmd (Some (mkCmd (path b) (path b :: args b) (env b)
                                            false None))) s))
  | RStdout =>
    match sc_stdoutPipe sc with
    | Some e => Some (set_runner (RDie AtStdout (ErrStdoutPipe e) OEnter) s)
    | None => Some (set_runner RStderr s)
    end
  | RStderr =>
    match sc_stderrPipe sc with
    | Some e => Some (set_runner (RDie AtStderr (ErrStderrPipe e) OEnter) s)
    | None => Some (set_runner RStart s)
    end
  | RStart =>
    match cmd b with
    | None => None
    | Some c =>
      match sc_start sc with
      | Some e => Some (set_runner (RDie AtStart (ErrStart e) OEnter) s)
      | None =>
        Some (set_runner RGo
                (set_childEnv (environ sc c)
                   (set_phase PAlive
                      (with_bin (set_cmd (Some (mkCmd (cmd_Path c) (cmd_Args c) (cmd_Env c)
                                                      true (cmd_ProcessState c)))) s))))
      end
    end
  | RGo => Some (set_runner RPort (set_watcher WWait s))
  | RPort =>
    if Z.eqb (port b) 0 then Some (set_runner RJob s)
    else Some (set_runner (RLoop 0 None) s)
  | RLoop i err =>
    if Nat.ltb i portCheckMaxAttempts then
      Some (set_runner (RDial i err) (emit [EvTick portCheckWaitTime] s))
    else
      Some (set_runner (RDie AtPort (ErrPort (name b) (port b) err) OEnter) s)
  | RDial i _ =>
    match sc_dial sc i with
    | Some e => Some (set_runner (RLoop (S i) (Some e)) (emit [EvDial (port b) (Some e)] s))
    | None => Some (set_runner RJob (emit [EvDial (port b) None] s))
    end
  | RDie site e o =>
    match once_step (ByDie e) o s with
    | None => None
    | Some (OReturned, s') => Some (set_runner (after_die site) s')
    | Some (o', s') => Some (set_runner (RDie site e o') s')
    end
  | RJob =>
    if job b then Some (set_runner RWaitDone s) else Some (set_runner RReturned s)
  | RWaitDone =>
    if done b then Some (set_runner RReturned (emit [EvLog LogJobCompleted] s))
    else None
  | RReturned => None
  end.

Definition watcher_step (s : Sys) : option Sys :=
  let b := bin s in
  match watcher s with
  | WNone => None
  | WWait =>
    match phase s, cmd b with
    | PZombie st, Some c =>
      Some (set_watcher (WClassify (waitError st))
              (set_phase (PReaped st)
                 (with_bin (set_cmd (Some (mkCmd (cmd_Path c) (cmd_Args c) (cmd_Env c)
                                                 (cmd_Process c) (Some st)))) s)))
    | _, _ => None
    end
  | WClassify err =>
    match err with
    | Some e =>
      if negb (exiting b) then Some (set_watcher WClose (emit (runErrorCallbacks b e) s))
      else Some (set_watcher WClose (emit (runExitCallbacks b) s))
    | None => Some (set_watcher WClose (emit (runExitCallbacks b) s))
    end
  | WClose => Some (set_watcher WDone (with_bin (set_done true) s))
  | WDone => None
  end.

Definition exit_step (i : nat) (s : Sys) : option Sys :=
  match callers s !! i with
  | None => None
  | Some o =>
    match once_step ByExit o s with
    | None => None
    | Some (o', s') => Some (set_callers (<[i:=o']> (callers s')) s')
    end
  end.

Definition step (sc : Scenario) (s : Sys) (m : Move) : option Sys :=
  match m with
  | MRun => runner_step sc s
  | MWatch => watcher_step s
  | MExit i => exit_step i s
  | MChildEnds st =>
    match phase s with
    | PAlive => Some (set_phase (PZombie st) s)
    | _ => None
    end
  end.

(** A schedule runs from the left; [None] when a move is not enabled. *)
Fixpoint exec (sc : Scenario) (s : Sys) (ms : list Move) : option Sys :=
  match ms with
  | [] => Some s
  | m :: ms' =>
    match step sc s m with
    | Some s' => exec sc s' ms'
    | None => None
    end
  end.

(** A handle as [New] and the builder methods leave it. *)
Definition unstarted (b : Binary) : Prop :=
  cmd b = None /\ done b = false /\ exiting b = false /\ terminateOnce b = OnceFresh.

(** [Run] is about to be called on [b]; [n] goroutines are about to call
    [Exit]. *)
Definition init (b : Binary) (n : nat) : Sys :=
  mkSys b PNone [] RCommand WNone (replicate n OEnter) [].

(** *** Observations on a trace *)

Definition is_callback (ev : Event) : bool :=
  match ev with
  | EvExitCallback _ | EvErrorCallback _ _ => true
  | _ => false
  end.

Definition is_signal (ev : Event) : bool :=
  match ev with EvSignal _ => true | _ => false end.

Definition is_tick (ev : Event) : bool :=
  match ev with EvTick _ => true | _ => false end.

Definition is_dial (ev : Event) : bool :=
  match ev with EvDial _ _ => true | _ => false end.

(** The callbacks that fired, in order. *)
Definition fired (t : list Event) : list Event := List.filter is_callback t.

(** The SIGTERMs sent to the child. *)
Definition signals (t : list Event) : nat := length (List.filter is_signal t).

(** The time spent waiting on the ticker, in ns. *)
Fixpoint waited (t : list Event) : Z :=
  match t with
  | [] => 0
  | EvTick d :: t' => d + waited t'
  | _ :: t' => waited t'
  end.

Definition dials (t : list Event) : nat := length (List.filter is_dial t).

Definition is_signal_call (ev : Event) : bool :=
  match ev with
  | EvSignal _ | EvLog (LogCouldNotExit _) => true
  | _ => false
  end.

(** The calls of [Process.Signal], whether they returned an error or not. *)
Definition signal_calls (t : list Event) : nat :=
  length (List.filter is_signal_call t).

(** The entries given to [WithEnv] so far. *)
Definition entries (b : Binary) : list string :=
  match env b with
  | None => []
  | Some l => l
  end.

(** *** Invariants of the schedules *)

Definition running (p : Phase) : Prop :=
  p = PAlive \/ exists st, p = PZombie st.

Definition reaped (p : Phase) : Prop := exists st, p = PReaped st.

(** One class of callbacks has fired, once: the exit callbacks, or the
    error callbacks with the error of [cmd.Wait]. *)
Definition classified (s : Sys) : Prop :=
  fired (trace s) = runExitCallbacks (bin s) \/
  exists st, fired (trace s) = runErrorCallbacks (bin s) (ErrExit st).

Definition watcher_inv (s : Sys) : Prop :=
  match watcher s with
  | WNone => fired (trace s) = [] /\ done (bin s) = false
  | WWait => fired (trace s) = [] /\ done (bin s) = false /\ running (phase s)
  | WClassify err =>
    fired (trace s) = [] /\ done (bin s) = false /\
    exists st, phase s = PReaped st /\ err = waitError st
  | WClose => done (bin s) = false /\ reaped (phase s) /\ classified s
  | WDone => done (bin s) = true /\ reaped (phase s) /\ classified s
  end.

Definition runner_inv (s : Sys) : Prop :=
  match runner s with
  | RCommand | RStdout | RStderr | RStart => watcher s = WNone /\ phase s = PNone
  | RDie site _ _ => site = AtPort \/ (watcher s = WNone /\ phase s = PNone)
  | RGo => watcher s = WNone /\ running (phase s)
  | _ => True
  end.

Definition lifecycle_inv (s : Sys) : Prop := watcher_inv s /\ runner_inv s.

(** What [die] and [Exit] leave alone: they write the flag and the Once,
    and add log lines and signals to the trace. *)
Record once_frame (s s' : Sys) : Prop := {
  of_phase : phase s' = phase s;
  of_childEnv : childEnv s' = childEnv s;
  of_runner : runner s' = runner s;
  of_watcher : watcher s' = watcher s;
  of_callers : callers s' = callers s;
  of_fired : fired (trace s') = fired (trace s);
  of_done : done (bin s') = done (bin s);
  of_cmd : cmd (bin s') = cmd (bin s);
  of_env : env (bin s') = env (bin s);
  of_exitCallbacks : exitCallbacks (bin s') = exitCallbacks (bin s);
  of_errorCallbacks : errorCallbacks (bin s') = errorCallbacks (bin s)
}.

Definition before_signal (o : OncePc) : nat :=
  match o with OSetExiting | OCheck | OSignal => 1 | _ => 0 end.
Definition after_signal (o : OncePc) : nat :=
  match o with OWaitDone => 1 | _ => 0 end.
Definition returned (o : OncePc) : nat :=
  match o with OReturned => 1 | _ => 0 end.

(** How many goroutines, the caller of [Run] inside [die] and the callers
    of [Exit], stand where [w] counts. *)
Definition tally (w : OncePc -> nat) (s : Sys) : nat :=
  match runner s with RDie _ _ o => w o | _ => 0 end + sum_list (w <$> callers s).

(** The Once: nobody is inside before the first call; one goroutine is
    inside while it is held, nobody has returned, and the signal was
    sent iff that goroutine is past it; afterwards nobody is inside, at
    most one signal was sent, and if one was, the channel is closed. *)
Definition once_inv (s : Sys) : Prop :=
  match terminateOnce (bin s) with
  | OnceFresh =>
    tally before_signal s = 0 /\ tally after_signal s = 0 /\ tally returned s = 0 /\
    signal_calls (trace s) = 0
  | OnceHeld =>
    tally before_signal s + tally after_signal s = 1 /\ tally returned s = 0 /\
    signal_calls (trace s) = tally after_signal s
  | OnceDone =>
    tally before_signal s = 0 /\ tally after_signal s = 0 /\
    signal_calls (trace s) <= 1 /\
    (signal_calls (trace s) = 1 -> done (bin s) = true)
  end.

(** What one statement of [Do] does to the Once, to the count of signal
    calls and to the place of its caller. *)
Inductive once_effect (s s' : Sys) : OncePc -> OncePc -> Prop :=
| eff_enter o' :
    terminateOnce (bin s) = OnceFresh -> terminateOnce (bin s') = OnceHeld ->
    before_signal o' = 1 -> after_signal o' = 0 -> returned o' = 0 ->
    signal_calls (trace s') = signal_calls (trace s) ->
    once_effect s s' OEnter o'
| eff_late :
    terminateOnce (bin s) = OnceDone -> terminateOnce (bin s') = OnceDone ->
    signal_calls (trace s') = signal_calls (trace s) ->
    once_effect s s' OEnter OReturned
| eff_flag :
    terminateOnce (bin s') = terminateOnce (bin s) ->
    signal_calls (trace s') = signal_calls (trace s) ->
    once_effect s s' OSetExiting OCheck
| eff_running :
    isRunning (bin s) = true ->
    terminateOnce (bin s') = terminateOnce (bin s) ->
    signal_calls (trace s') = signal_calls (trace s) ->
    once_effect s s' OCheck OSignal
| eff_not_running :
    isRunning (bin s) = false ->
    terminateOnce (bin s') = OnceDone ->
    signal_calls (trace s') = signal_calls (trace s) ->
    once_effect s s' OCheck OReturned
| eff_signal :
    terminateOnce (bin s') = terminateOnce (bin s) ->
    signal_calls (trace s') = S (signal_calls (trace s)) ->
    once_effect s s' OSignal OWaitDone
| eff_done :
    done (bin s) = true ->
    terminateOnce (bin s') = OnceDone ->
    signal_calls (trace s') = signal_calls (trace s) ->
    once_effect s s' OWaitDone OReturned.

(** The goroutine that took the step stood at [o] and stands at [o'']. *)
Definition moved (w : OncePc -> nat) (s s' : Sys) (o o'' : OncePc) : Prop :=
  tally w s' + w o = tally w s + w o''.


(** The polling loop has waited for one tick and dialled once per round. *)
Definition poll_inv (s : Sys) : Prop :=
  match runner s with
  | RCommand | RStdout | RStderr | RStart | RGo | RPort =>
    waited (trace s) = 0%Z /\ dials (trace s) = 0
  | RLoop i _ =>
    waited (trace s) = (Z.of_nat i * portCheckWaitTime)%Z /\ dials (trace s) = i /\
    i <= portCheckMaxAttempts
  | RDial i _ =>
    waited (trace s) = (Z.of_nat (S i) * portCheckWaitTime)%Z /\ dials (trace s) = i /\
    i < portCheckMaxAttempts
  | RDie AtPort _ _ =>
    waited (trace s) = (Z.of_nat portCheckMaxAttempts * portCheckWaitTime)%Z /\
    dials (trace s) = portCheckMaxAttempts
  | _ => True
  end.

(** Where the caller of [Run] can stand when the spawn fails. *)
Definition before_spawn (r : RunPc) : Prop :=
  match r with
  | RCommand | RStdout | RStderr | RStart | RReturned => True
  | RDie site _ _ => site <> AtPort
  | _ => False
  end.

(** The command has a process only when a child was spawned. *)
Definition process_inv (s : Sys) : Prop :=
  forall c, cmd (bin s) = Some c -> cmd_Process c = true -> phase s <> PNone.

Definition never_spawned (s : Sys) : Prop :=
  before_spawn (runner s) /\ watcher s = WNone /\ phase s = PNone.

(** *** [RunAsJob] *)

(** [errors.New("Cannot call RunAsJob on a Binary that is not a job")]. *)
Definition errNotAJob : error :=
  ErrSys "Cannot call RunAsJob on a Binary that is not a job".

(** [RunAsJob] up to its call of [Run]: the refusal of a handle that is no
    job, or the handle with the closure [cb] registered, which stores its
    argument in [jobError]. *)
Definition RunAsJob (cb : callback) (b : Binary) : result Binary :=
  if negb (job b) then Err errNotAJob else Ok (OnError cb b).

(** What [RunAsJob] returns after [Run]: the value of [jobError], nil, or
    the argument of the last call of the closure. *)
Definition jobError (cb : callback) (t : list Event) : option error :=
  fold_left (fun acc ev =>
               match ev with
               | EvErrorCallback cb' e => if Nat.eqb cb' cb then Some e else acc
               | _ => acc
               end) t None.

(** *** More invariants of the schedules *)

(** The callbacks that the watcher calls for a child that ended with
    status [st] when nobody has asked for the exit. *)
Definition by_status (b : Binary) (st : WaitStatus) : list Event :=
  match waitError st with
  | Some e => runErrorCallbacks b e
  | None => runExitCallbacks b
  end.

Definition status_inv (s : Sys) : Prop :=
  match watcher s with
  | WClose | WDone =>
    exists st, phase s = PReaped st /\
               (exiting (bin s) = false -> fired (trace s) = by_status (bin s) st)
  | _ => True
  end.

(** The exit was asked for before the watcher classified. *)
Definition graceful_inv (s : Sys) : Prop :=
  exiting (bin s) = true /\
  match watcher s with
  | WClose | WDone => fired (trace s) = runExitCallbacks (bin s)
  | _ => fired (trace s) = []
  end.

(** [Run] on a job has returned: nothing was spawned, or the channel is
    closed. *)
Definition return_inv (s : Sys) : Prop :=
  runner s = RReturned -> job (bin s) = true ->
  phase s = PNone \/ done (bin s) = true.

(** The fields that only the builder methods write. *)
Definition same_config (b b' : Binary) : Prop :=
  name b' = name b /\ path b' = path b /\ port b' = port b /\ env b' = env b /\
  args b' = args b /\ job b' = job b /\
  exitCallbacks b' = exitCallbacks b /\ errorCallbacks b' = errorCallbacks b.

Definition poll_bound (s : Sys) : Prop :=
  dials (trace s) <= portCheckMaxAttempts /\
  (waited (trace s) <= Z.of_nat portCheckMaxAttempts * portCheckWaitTime)%Z.

(** Without a port there is no polling. *)
Definition no_port_inv (s : Sys) : Prop :=
  match runner s with
  | RLoop _ _ | RDial _ _ | RDie AtPort _ _ => False
  | _ => True
  end /\ dials (trace s) = 0 /\ waited (trace s) = 0%Z.

(** The dial of round [k] succeeds: the loop does not go past it. *)
Definition ready_inv (k : nat) (s : Sys) : Prop :=
  match runner s with
  | RLoop i _ | RDial i _ => i <= k
  | RDie AtPort _ _ => False
  | _ => True
  end /\
  dials (trace s) <= S k /\ (waited (trace s) <= Z.of_nat (S k) * portCheckWaitTime)%Z.

Definition at_signal (o : OncePc) : nat :=
  match o with OSignal => 1 | _ => 0 end.

(** [b.cmd != nil && b.cmd.Process != nil]. *)
Definition has_process (b : Binary) : Prop :=
  exists c, cmd b = Some c /\ cmd_Process c = true.

Definition past_start (r : RunPc) : Prop :=
  match r with
  | RCommand | RStdout | RStderr | RStart => False
  | RDie site _ _ => site = AtPort
  | _ => True
  end.

(** Whoever stands before [Process.Signal] has a process to signal. *)
Definition signal_inv (s : Sys) : Prop :=
  (has_process (bin s) -> phase s <> PNone /\ past_start (runner s)) /\
  (1 <= tally at_signal s -> has_process (bin s)).

(** The termination body has run: the Once is used. *)
Definition spent (c : nat) (x : bool) (s : Sys) : Prop :=
  terminateOnce (bin s) = OnceDone /\
  signal_calls (trace s) = c /\ exiting (bin s) = x.

(** Nobody calls [Exit]. *)
Definition unasked (s : Sys) : Prop :=
  callers s = [] /\ exiting (bin s) = false /\
  match runner s with RDie _ _ OSetExiting => False | _ => True end.

End Proc.

(** ** The group supervisor [Worker] *)

Module Group.

(** The fields [name], [errorCallbacks] and [terminateOnce] of the worker
    carry the prefix [w_]: the handle has fields of the same names. *)
Record Worker := mkWorker {
  w_name : string;
  sequentialMode : bool;
  binaries : list Binary;
  errors : list error;                (* the causes of the multierror; nil when empty *)
  w_errorCallbacks : list callback;
  terminating : bool;
  w_terminateOnce : OnceState
}.

Inductive LogMsg :=
| LogDying (e : error)        (* "dying: %v" *)
| LogDied                     (* "died" *)
| LogExiting                  (* "Exiting gracefully." *)
| LogExited.                  (* "Exited gracefully." *)

(** What a goroutine that runs a method of the worker does to the world
    outside of the worker's own fields, and its writes of the shared flag
    [terminating], in order. *)
Inductive Event :=
| EvLog (m : LogMsg)
| EvGroupError (cb : callback) (e : error)  (* a callback given to Worker.OnError is called *)
| EvSetTerminating                          (* w.terminating = true *)
| EvExitCalled (b : Binary)                 (* fn(): binary.Exit() is entered ... *)
| EvExitReturned (b : Binary)               (* ... and has returned; wg.Done() *)
| EvGoExit (b : Binary)                     (* go fn() *)
| EvGoRunBinary (b : Binary)                (* go func() { w.runBinary(binary); wg.Done() }() *)
| EvOnError (b : Binary)                    (* binary.OnError(closure) *)
| EvOnExit (b : Binary)                     (* binary.OnExit(closure) *)
| EvRun (b : Binary)                        (* binary.Run(), to its return *)
| EvWaitGroup.                              (* wg.Wait() *)

Definition set_errors (v : list error) (w : Worker) : Worker :=
  mkWorker (w_name w) (sequentialMode w) (binaries w) v (w_errorCallbacks w)
           (terminating w) (w_terminateOnce w).
Definition set_w_errorCallbacks (v : list callback) (w : Worker) : Worker :=
  mkWorker (w_name w) (sequentialMode w) (binaries w) (errors w) v
           (terminating w) (w_terminateOnce w).
Definition set_terminating (v : bool) (w : Worker) : Worker :=
  mkWorker (w_name w) (sequentialMode w) (binaries w) (errors w) (w_errorCallbacks w)
           v (w_terminateOnce w).
Definition set_w_terminateOnce (v : OnceState) (w : Worker) : Worker :=
  mkWorker (w_name w) (sequentialMode w) (binaries w) (errors w) (w_errorCallbacks w)
           (terminating w) v.

(** A method of the worker: the new fields and what was done. *)
Definition action := Worker -> Worker * list Event.

Definition NewWorker (name : string) (binaries : list Binary) : Worker :=
  mkWorker name false binaries [] [] false OnceFresh.

Definition OnError (cb : callback) (w : Worker) : Worker :=
  set_w_errorCallbacks (w_errorCallbacks w ++ [cb]) w.

(** [w.errors.ErrorOrNil()], under the lock. *)
Definition GetError (w : Worker) : option (list error) :=
  match errors w with
  | [] => None
  | es => Some es
  end.

(** The body of the loop of [terminate] at index [i]. *)
Definition exit_member (w : Worker) (i : nat) : list Event :=
  match binaries w !! i with
  | None => []
  | Some binary =>
    if sequentialMode w then [EvExitCalled binary; EvExitReturned binary]
    else [EvGoExit binary]
  end.

(** [for i := k - 1; i >= 0; i--]. *)
Fixpoint exit_members (w : Worker) (k : nat) : list Event :=
  match k with
  | O => []
  | S i => exit_member w i ++ exit_members w i
  end.

Definition terminate : action := fun w =>
  let w1 := set_terminating true w in
  (w1, [EvSetTerminating] ++ exit_members w1 (length (binaries w1)) ++ [EvWaitGroup]).

(** [w.terminateOnce.Do(f)]: only the first call runs [f]; a later call
    returns, once the first has, without running it. *)
Definition once_do (f : action) : action := fun w =>
  match w_terminateOnce w with
  | OnceFresh =>
    let '(w1, evs) := f (set_w_terminateOnce OnceHeld w) in
    (set_w_terminateOnce OnceDone w1, evs)
  | _ => (w, [])
  end.

Definition die (err : error) : action :=
  once_do (fun w =>
    let '(w1, evs) := terminate w in
    (w1, map (fun cb => EvGroupError cb err) (w_errorCallbacks w)
         ++ [EvLog (LogDying err)] ++ evs ++ [EvLog LogDied])).

Definition Exit : action :=
  once_do (fun w =>
    let '(w1, evs) := terminate w in
    (w1, [EvLog LogExiting] ++ evs ++ [EvLog LogExited])).

(** The closure that [runBinary] gives to [binary.OnError]. *)
Definition onBinaryError (binary : Binary) (err : error) : action := fun w =>
  let err := ErrFatal (Name binary) err in
  let w1 := set_errors (errors w ++ [err]) w in
  if negb (terminating w1) then die err w1 else (w1, []).

(** The closure that [runBinary] gives to [binary.OnExit]. *)
Definition onBinaryExit (binary : Binary) : action := fun w =>
  if negb (terminating w) then
    let err := ErrUnexpectedExit (Name binary) in
    let w1 := set_errors (errors w ++ [err]) w in
    die err w1
  else (w, []).


Definition Run : action := fun w =>
  (w, map EvGoRunBinary (binaries w) ++ [EvWaitGroup]).


(** The binaries whose [Exit] a goroutine started, in the order of the
    starts. *)
Fixpoint exits (t : list Event) : list Binary :=
  match t with
  | [] => []
  | EvExitCalled b :: t' => b :: exits t'
  | EvGoExit b :: t' => b :: exits t'
  | _ :: t' => exits t'
  end.

Definition is_exit (ev : Event) : bool :=
  match ev with
  | EvExitCalled _ | EvExitReturned _ | EvGoExit _ => true
  | _ => false
  end.

(** In the trace of one goroutine, every [Exit] is a call that has
    returned before the next event: none is left to another goroutine. *)
Inductive one_at_a_time : list Event -> Prop :=
| oat_nil : one_at_a_time []
| oat_exit b t :
    one_at_a_time t -> one_at_a_time (EvExitCalled b :: EvExitReturned b :: t)
| oat_other ev t :
    is_exit ev = false -> one_at_a_time t -> one_at_a_time (ev :: t).

(** A teardown of [w] with result [r]: the flag is set, the write of the
    flag comes before every call of [Exit], the calls go through the
    binaries in the reverse of their registration, and in sequential
    mode one at a time. *)
Definition orderly_teardown (w : Worker) (r : Worker * list Event) : Prop :=
  terminating (fst r) = true /\
  (exists t1 t2, snd r = t1 ++ EvSetTerminating :: t2 /\
                 exits t1 = [] /\ exits t2 = rev (binaries w)) /\
  (sequentialMode w = true -> one_at_a_time (snd r)).

Definition set_binaries (v : list Binary) (w : Worker) : Worker :=
  mkWorker (w_name w) (sequentialMode w) v (errors w) (w_errorCallbacks w)
           (terminating w) (w_terminateOnce w).

(** [WithEnv]; [keyToValue] holds the entries of the map in the order in
    which [range] yields them.  The binaries are pointers, taken to be
    distinct: the worker sees what [bin.WithEnv] writes. *)
Definition WithEnv (keyToValue : list (string * string)) (w : Worker) : Worker :=
  fold_left (fun w kv =>
               set_binaries (map (WithEnv (fst kv) (snd kv)) (binaries w)) w)
            keyToValue w.

(** A call that reaches a running worker: [Exit] from its owner, or one of
    the closures of [runBinary] from the watcher of a member. *)
Inductive Call :=
| CallExit
| CallBinaryError (binary : Binary) (err : error)
| CallBinaryExit (binary : Binary).

Definition serve (c : Call) : action :=
  match c with
  | CallExit => Exit
  | CallBinaryError binary err => onBinaryError binary err
  | CallBinaryExit binary => onBinaryExit binary
  end.

(** Calls that are served one after the other. *)
Fixpoint serve_all (cs : list Call) : action := fun w =>
  match cs with
  | [] => (w, [])
  | c :: cs' =>
    let '(w1, t1) := serve c w in
    let '(w2, t2) := serve_all cs' w1 in
    (w2, t1 ++ t2)
  end.

(** The writes of the flag [terminating]. *)
Definition teardowns (t : list Event) : nat :=
  length (List.filter (fun ev => match ev with EvSetTerminating => true | _ => false end) t).

(** The calls of the callbacks given to [Worker.OnError], in order. *)
Fixpoint group_errors (t : list Event) : list (callback * error) :=
  match t with
  | [] => []
  | EvGroupError cb e :: t' => (cb, e) :: group_errors t'
  | _ :: t' => group_errors t'
  end.


(** One teardown of [w] has led to [w'] with the events [t]; the group
    callbacks were called as in [calls]. *)
Definition torn_down (w w' : Worker) (t : list Event)
           (calls : list (callback * error)) : Prop :=
  w_terminateOnce w' = OnceDone /\ terminating w' = true /\
  binaries w' = binaries w /\ errors w' = errors w /\
  w_errorCallbacks w' = w_errorCallbacks w /\ sequentialMode w' = sequentialMode w /\
  exits t = rev (binaries w) /\ teardowns t = 1 /\ group_errors t = calls.


End Group.

(** ** Concrete hosts, handles and schedules *)

Module Examples.
Import Path Proc.

(** [tool] is found on the search path as a link to a link to a file. *)
Definition host : Host := {|
  os_Lstat := fun p =>
    if String.eqb p "/usr/local/bin/tool" then Ok (Z.lor ModeSymlink 511%Z)
    else if String.eqb p "/usr/bin/tool" then Ok (Z.lor ModeSymlink 511%Z)
    else if String.eqb p "/opt/tool/bin/tool" then Ok 493%Z
    else Err (ErrSys "no such file or directory");
  os_Readlink := fun p =>
    if String.eqb p "/usr/local/bin/tool" then Ok "/usr/bin/tool"
    else if String.eqb p "/usr/bin/tool" then Ok "/opt/tool/bin/tool"
    else Err (ErrSys "invalid argument");
  os_Getwd := Ok "/home/app";
  exec_LookPath := fun f =>
    if String.eqb f "tool" then Ok "/usr/local/bin/tool"
    else Err (ErrSys "executable file not found in $PATH");
  path_Join := fun dir f => dir +:+ "/" +:+ f
|}.

(** [tool] is found on the search path as a link whose target is given
    relative to the directory of the link. *)
Definition versioned_host : Host := {|
  os_Lstat := fun p =>
    if String.eqb p "/usr/bin/tool" then Ok (Z.lor ModeSymlink 511%Z)
    else if String.eqb p "/usr/bin/tool-1.2" then Ok 493%Z
    else Err (ErrSys "no such file or directory");
  os_Readlink := fun p =>
    if String.eqb p "/usr/bin/tool" then Ok "tool-1.2"
    else Err (ErrSys "invalid argument");
  os_Getwd := Ok "/home/app";
  exec_LookPath := fun f =>
    if String.eqb f "tool" then Ok "/usr/bin/tool"
    else Err (ErrSys "executable file not found in $PATH");
  path_Join := fun dir f => dir +:+ "/" +:+ f
|}.

(** [New("tool", "/opt/tool/bin/tool")]: a daemon without callbacks. *)
Definition tool : Binary :=
  mkBinary "tool" "/opt/tool/bin/tool" 0%Z None None [] false false [] [] false OnceFresh.

(** The same with an exit callback (3) and an error callback (7). *)
Definition watched : Binary := OnError 7 (OnExit 3 tool).

Definition quiet : Scenario := {|
  sc_environ := ["HOME=/home/app"; "PATH=/usr/local/bin:/usr/bin"];
  sc_stdoutPipe := None;
  sc_stderrPipe := None;
  sc_start := None;
  sc_dial := fun _ => None
|}.

(** The spawn fails. *)
Definition no_spawn : Scenario := {|
  sc_environ := sc_environ quiet;
  sc_stdoutPipe := None;
  sc_stderrPipe := None;
  sc_start := Some (ErrSys "fork/exec /opt/tool/bin/tool: permission denied");
  sc_dial := fun _ => None
|}.

(** Nothing ever listens on the port. *)
Definition closed_port : Scenario := {|
  sc_environ := sc_environ quiet;
  sc_stdoutPipe := None;
  sc_stderrPipe := None;
  sc_start := None;
  sc_dial := fun _ => Some (ErrSys "dial tcp 127.0.0.1:5432: connect: connection refused")
|}.

(** [Run] up to the return of a failed start: Command, the two pipes,
    Start, and the three statements of [die]. *)
Definition run_to_failed_start : list Move := replicate 6 MRun.

(** [Run] with a never opening port: spawn (6 moves), 40 times tick and
    dial, [die] up to the signal (4 moves); the child dies of it; the
    watcher waits, classifies and closes; [die] and [Run] return. *)
Definition run_to_timeout : list Move :=
  replicate 6 MRun ++ replicate 80 MRun ++ replicate 4 MRun
    ++ [MChildEnds (Signaled SIGTERM); MWatch; MWatch; MWatch; MRun; MRun].

(** A job with a port, as a launcher that starts a server and exits: the
    child ends with status 0 at once, the port never opens, and [Run]
    polls to the end, goes through [die] and returns. *)
Definition launcher_to_timeout : list Move :=
  replicate 5 MRun ++ [MChildEnds (Exited 0%Z); MWatch; MWatch; MWatch]
    ++ replicate 81 MRun ++ replicate 5 MRun.



(** [Exit] on a handle that was never run. *)
Definition exit_unstarted : list Move := [MExit 0; MExit 0; MExit 0].


(** A daemon ends with status 0; the watcher has waited for it and has not
    yet called the callbacks when [Exit] is called. *)
Definition exit_during_classification : list Move :=
  replicate 6 MRun ++ [MChildEnds (Exited 0%Z); MWatch; MExit 0; MExit 0; MExit 0].

(** The state that a schedule leads to. *)
Definition after (sc : Scenario) (b : Binary) (n : nat) (ms : list Move) : Sys :=
  match exec sc (init b n) ms with
  | Some s => s
  | None => init b n
  end.

Definition group : Group.Worker :=
  Group.NewWorker "db" [tool; AsJob watched; WithPort 5432%Z tool].


(** The group while it tears down. *)
Definition terminating_group : Group.Worker := Group.set_terminating true group.

(** [tool] is found on the search path as a link to a link that leads
    back to the first. *)
Definition looping_host : Host := {|
  os_Lstat := fun p =>
    if String.eqb p "/usr/bin/tool" then Ok (Z.lor ModeSymlink 511%Z)
    else if String.eqb p "/etc/alternatives/tool" then Ok (Z.lor ModeSymlink 511%Z)
    else Err (ErrSys "no such file or directory");
  os_Readlink := fun p =>
    if String.eqb p "/usr/bin/tool" then Ok "/etc/alternatives/tool"
    else if String.eqb p "/etc/alternatives/tool" then Ok "/usr/bin/tool"
    else Err (ErrSys "invalid argument");
  os_Getwd := Ok "/home/app";
  exec_LookPath := fun f =>
    if String.eqb f "tool" then Ok "/usr/bin/tool"
    else Err (ErrSys "executable file not found in $PATH");
  path_Join := fun dir f => dir +:+ "/" +:+ f
|}.

(** A job that runs until its child ends with status [st] by itself:
    spawn and wait (7 moves), the child ends, the watcher waits,
    classifies and closes, [Run] returns. *)
Definition job_to_status (st : WaitStatus) : list Move :=
  replicate 7 MRun ++ [MChildEnds st; MWatch; MWatch; MWatch; MRun].

(** A daemon runs; [Exit] is called and has set the exiting flag. *)
Definition exit_requested : list Move := replicate 6 MRun ++ [MExit 0; MExit 0].

(** The rest of that [Exit]: it signals, the child dies of the signal, the
    watcher waits, classifies and closes, and [Exit] returns. *)
Definition exit_served : list Move :=
  [MExit 0; MExit 0; MChildEnds (Signaled SIGTERM); MWatch; MWatch; MWatch; MExit 0].

(** A daemon runs; [Exit] is called and stands before the signal. *)
Definition exit_to_signal : list Move := replicate 6 MRun ++ [MExit 0; MExit 0; MExit 0].

(** After an [Exit] on a handle that was never run: [Run] spawns the
    child, and a second goroutine calls [Exit]. *)
Definition run_then_exit : list Move := replicate 6 MRun ++ [MExit 1].

(** A daemon with a port that is open at the first dial: spawn, test of
    the port, tick, dial, test of the job flag. *)
Definition run_to_open_port : list Move := replicate 9 MRun.

End Examples.

(** * Properties *)

(** ** Path resolution *)

Section PathResolution.
Import Path.
Variable h : Host.


(** The loop ends as soon as the fuel exceeds the number of links. *)
Lemma dereferenceLinks_total n p q fuel :
  chain h n p q -> isSymlink h q = false -> n < fuel ->
  dereferenceLinks h fuel p = Some (Ok q).
Proof.
  intros Hc Hq. revert fuel. induction Hc as [p|n p p' q Hl Hr Hc IH]; intros fuel Hf.
  - destruct fuel; [lia|]. simpl. now rewrite Hq.
  - destruct fuel; [lia|]. simpl. rewrite Hl, Hr. apply IH; [exact Hq|lia].
Qed.


End PathResolution.

(** With fuel for the chain of links, [New] returns: construction does not
    run for ever unless the links form a cycle. *)
Lemma New_returns (h : Path.Host) (nm filename : string) (args : list string)
      (binaryPath q : string) (n fuel : nat) :
  Path.absolute filename = false ->
  Path.ContainsRune filename Path.PathSeparator = false ->
  filename <> EmptyString ->
  Path.exec_LookPath h filename = Ok binaryPath ->
  Path.chain h n binaryPath q -> Path.isSymlink h q = false -> n < fuel ->
  exists b, Path.New h fuel nm filename args = Some (Return b) /\ path b = q.
Proof.
  intros Ha Hc Hne Hl Hch Hq Hf.
  unfold Path.New, Path.lookupPath.
  destruct filename as [|c rest]; [congruence|].
  simpl in Ha. rewrite Ha, Hc, Hl.
  rewrite (dereferenceLinks_total h n binaryPath q fuel Hch Hq Hf).
  eexists. split; reflexivity.
Qed.




(** The link that is read can name a relative target, which is then taken
    as it is: the stored path of a name found on the search path need not
    be absolute. *)
Lemma New_relative_link_target :
  exists b, Path.New Examples.versioned_host 3 "tool" "tool" [] = Some (Return b) /\
    path b = "tool-1.2" /\ Path.absolute (path b) = false.
Proof. eexists. repeat split. Qed.

(** C9: with the empty path, the first-character test [filename[0]] of
    [lookupPath] panics with an index out of range, whatever the host
    answers; [New] and [MustNew] panic with it and return no error. *)
Theorem New_empty_path_panics (h : Path.Host) (fuel : nat) (nm : string)
        (args : list string) :
  Path.lookupPath h fuel "" = Some (Panics (IndexOutOfRange 0 0)) /\
  Path.New h fuel nm "" args = Some (Panics (IndexOutOfRange 0 0)) /\
  Path.MustNew h fuel nm "" args = Some (Panics (IndexOutOfRange 0 0)).
Proof. repeat split. Qed.

(** ** The group supervisor *)

Section GroupTeardown.
Import Group.

Lemma exits_app t1 t2 : exits (t1 ++ t2) = exits t1 ++ exits t2.
Proof.
  induction t1 as [|ev t1 IH]; [reflexivity|].
  destruct ev; simpl; rewrite IH; reflexivity.
Qed.

Lemma exits_exit_member w i b :
  binaries w !! i = Some b -> exits (exit_member w i) = [b].
Proof.
  unfold exit_member. intros ->. now destruct (sequentialMode w).
Qed.

(** The loop from index [k - 1] down to 0 goes through the first [k]
    binaries backwards. *)
Lemma exits_exit_members w k :
  k <= length (binaries w) ->
  exits (exit_members w k) = rev (take k (binaries w)).
Proof.
  induction k as [|i IH]; intros Hk; [reflexivity|].
  destruct (lookup_lt_is_Some_2 (binaries w) i) as [b Hb]; [lia|].
  simpl exit_members. rewrite exits_app, (exits_exit_member w i b Hb), IH by lia.
  rewrite (take_S_r _ _ _ Hb), rev_app_distr. reflexivity.
Qed.

Lemma one_at_a_time_app t1 t2 :
  one_at_a_time t1 -> one_at_a_time t2 -> one_at_a_time (t1 ++ t2).
Proof.
  induction 1; intros H2; simpl; [exact H2| |]; constructor; auto.
Qed.

Lemma one_at_a_time_exit_members w k :
  sequentialMode w = true -> one_at_a_time (exit_members w k).
Proof.
  intros Hs. induction k as [|i IH]; [constructor|].
  simpl. unfold exit_member. rewrite Hs.
  destruct (binaries w !! i); simpl; [constructor|]; exact IH.
Qed.



Lemma terminate_orderly w : orderly_teardown w (terminate w).
Proof.
  unfold orderly_teardown, terminate; simpl. split; [reflexivity|]. split.
  - exists [], (exit_members (set_terminating true w) (length (binaries w)) ++ [EvWaitGroup]).
    repeat split.
    rewrite exits_app, exits_exit_members by (simpl; lia).
    simpl. now rewrite firstn_all, app_nil_r.
  - intros Hs. apply (oat_other EvSetTerminating); [reflexivity|].
    apply one_at_a_time_app; [now apply one_at_a_time_exit_members|].
    now repeat constructor.
Qed.



End GroupTeardown.



Lemma once_do_quiet (f : Group.action) (w : Group.Worker) :
  Group.w_terminateOnce w <> OnceFresh -> Group.once_do f w = (w, []).
Proof. unfold Group.once_do. now destruct (Group.w_terminateOnce w). Qed.

(** C5, as the code has it: the closure given to [binary.OnError] appends
    the wrapped error to the collector every time, also while the group is
    terminating; it does nothing else then.  It calls [die] exactly when the
    group is not terminating, and a teardown starts only then, and only
    from the first call that the Once lets in. *)
Theorem error_interception (w : Group.Worker) (binary : Binary) (err : error) :
  let e := ErrFatal (Name binary) err in
  let w1 := Group.set_errors (Group.errors w ++ [e]) w in
  Group.errors (fst (Group.onBinaryError binary err w)) = Group.errors w ++ [e] /\
  (Group.terminating w = true -> Group.onBinaryError binary err w = (w1, [])) /\
  (Group.terminating w = false ->
   Group.onBinaryError binary err w = Group.die e w1) /\
  (In Group.EvSetTerminating (snd (Group.onBinaryError binary err w)) ->
   Group.terminating w = false /\ Group.w_terminateOnce w = OnceFresh).
Proof.
  intros e w1. unfold Group.onBinaryError. fold e. fold w1.
  change (Group.terminating w1) with (Group.terminating w).
  destruct (Group.terminating w) eqn:Ht; simpl negb; cbv iota.
  - split; [reflexivity|]. split; [reflexivity|]. split; [discriminate|].
    simpl. intros [].
  - split; [|split; [discriminate|split; [reflexivity|]]].
    + unfold Group.die, Group.once_do.
      destruct (Group.w_terminateOnce w1); reflexivity.
    + intros Hin. split; [reflexivity|]. unfold Group.die in Hin.
      destruct (Group.w_terminateOnce w) eqn:Ho; [reflexivity| |];
        rewrite once_do_quiet in Hin by (simpl; congruence); destruct Hin.
Qed.

Lemma error_interception_witness :
  Group.onBinaryError Examples.tool (ErrExit (Exited 1)) Examples.terminating_group
  = (Group.set_errors [ErrFatal "tool" (ErrExit (Exited 1))] Examples.terminating_group, [])
  /\ Group.onBinaryError Examples.tool (ErrExit (Exited 1)) Examples.group
     = Group.die (ErrFatal "tool" (ErrExit (Exited 1)))
         (Group.set_errors [ErrFatal "tool" (ErrExit (Exited 1))] Examples.group).
Proof.
  split.
  - exact (proj1 (proj2 (error_interception Examples.terminating_group Examples.tool
                           (ErrExit (Exited 1)))) eq_refl).
  - exact (proj1 (proj2 (proj2 (error_interception Examples.group Examples.tool
                                  (ErrExit (Exited 1))))) eq_refl).
Defined.

(** C5, as it is stated, fails: while the group is terminating, an error of
    a member still changes the collector. *)
Lemma error_interception_appends_while_terminating :
  Group.terminating Examples.terminating_group = true /\
  Group.GetError Examples.terminating_group = None /\
  Group.GetError
    (fst (Group.onBinaryError Examples.tool (ErrExit (Exited 1)) Examples.terminating_group))
  = Some [ErrFatal "tool" (ErrExit (Exited 1))] /\
  Group.errors
    (fst (Group.onBinaryError Examples.tool (ErrExit (Exited 1)) Examples.terminating_group))
  <> Group.errors Examples.terminating_group.
Proof. repeat split. discriminate. Qed.

(** The sibling closure, given to [binary.OnExit], does leave the collector
    alone while the group is terminating. *)
Lemma exit_interception_while_terminating (w : Group.Worker) (binary : Binary) :
  Group.terminating w = true -> Group.onBinaryExit binary w = (w, []).
Proof. unfold Group.onBinaryExit. now intros ->. Qed.

(** ** The life of one process *)

Section Lifecycle.
Import Proc.

(** *** Schedules and invariants *)

(** A property kept by every step holds along every schedule. *)
Lemma exec_invariant sc (P : Sys -> Prop) :
  (forall s m s', P s -> step sc s m = Some s' -> P s') ->
  forall ms s s', P s -> exec sc s ms = Some s' -> P s'.
Proof.
  intros Hstep. induction ms as [|m ms IH]; intros s s' HP; simpl.
  - now intros [= <-].
  - destruct (step sc s m) as [s1|] eqn:Hs; [|discriminate].
    apply IH. eapply Hstep; eauto.
Qed.

Lemma fired_app t1 t2 : fired (t1 ++ t2) = fired t1 ++ fired t2.
Proof. apply List.filter_app. Qed.

Lemma fired_runExitCallbacks b : fired (runExitCallbacks b) = runExitCallbacks b.
Proof.
  unfold runExitCallbacks. induction (exitCallbacks b) as [|cb l IH]; simpl; [|rewrite IH]; reflexivity.
Qed.

Lemma fired_runErrorCallbacks b e : fired (runErrorCallbacks b e) = runErrorCallbacks b e.
Proof.
  unfold runErrorCallbacks. induction (errorCallbacks b) as [|cb l IH]; simpl; [|rewrite IH]; reflexivity.
Qed.

Lemma once_step_frame k o s o' s' :
  once_step k o s = Some (o', s') -> once_frame s s'.
Proof.
  unfold once_step. intros H.
  repeat case_match; simplify_eq; split; simpl; rewrite ?fired_app, ?app_nil_r; reflexivity.
Qed.


Lemma waitError_Some st e : waitError st = Some e -> e = ErrExit st.
Proof. destruct st as [[| |]|]; simpl; congruence. Qed.

Lemma watcher_inv_frame s s' :
  watcher s' = watcher s -> phase s' = phase s ->
  fired (trace s') = fired (trace s) -> done (bin s') = done (bin s) ->
  exitCallbacks (bin s') = exitCallbacks (bin s) ->
  errorCallbacks (bin s') = errorCallbacks (bin s) ->
  watcher_inv s -> watcher_inv s'.
Proof.
  unfold watcher_inv, classified, runExitCallbacks, runErrorCallbacks.
  intros -> -> -> -> -> ->. exact id.
Qed.

Lemma runner_inv_frame s s' :
  runner s' = runner s -> watcher s' = watcher s -> phase s' = phase s ->
  runner_inv s -> runner_inv s'.
Proof. unfold runner_inv. intros -> -> ->. exact id. Qed.

Ltac frame_w s :=
  apply (watcher_inv_frame s); simpl; rewrite ?fired_app, ?app_nil_r; auto.

Lemma lifecycle_inv_run sc s s' :
  lifecycle_inv s -> runner_step sc s = Some s' -> lifecycle_inv s'.
Proof.
  intros [HW HR] Hs. unfold runner_step in Hs. unfold runner_inv in HR.
  destruct (runner s) eqn:Hr.
  - (* RCommand *) simplify_eq. split; [frame_w s|exact HR].
  - (* RStdout *)
    destruct (sc_stdoutPipe sc); simplify_eq; (split; [frame_w s|]);
      unfold runner_inv; simpl; auto.
  - (* RStderr *)
    destruct (sc_stderrPipe sc); simplify_eq; (split; [frame_w s|]);
      unfold runner_inv; simpl; auto.
  - (* RStart *)
    destruct (cmd (bin s)) as [c|]; [|discriminate].
    destruct (sc_start sc); simplify_eq.
    + split; [frame_w s|]. unfold runner_inv; simpl; auto.
    + destruct HR as [Hw Hp]. unfold watcher_inv in HW. rewrite Hw in HW. split.
      * unfold watcher_inv. simpl. rewrite Hw. exact HW.
      * unfold runner_inv, running. simpl. auto.
  - (* RGo *)
    simplify_eq. destruct HR as [Hw Hp].
    unfold watcher_inv in HW. rewrite Hw in HW. destruct HW as [Hf Hd]. split.
    + unfold watcher_inv. simpl. auto.
    + exact I.
  - (* RPort *)
    destruct (Z.eqb (port (bin s)) 0); simplify_eq; (split; [frame_w s|exact I]).
  - (* RLoop *)
    destruct (Nat.ltb i portCheckMaxAttempts); simplify_eq; (split; [frame_w s|]);
      unfold runner_inv; simpl; auto.
  - (* RDial *)
    destruct (sc_dial sc i); simplify_eq; (split; [frame_w s|exact I]).
  - (* RDie *)
    destruct (once_step (ByDie e) o s) as [[o' s1]|] eqn:Ho; [|discriminate].
    destruct (once_step_frame _ _ _ _ _ Ho) as [Fph Fce Fru Fwa Fca Ffi Fdo Fcm Fen Fxc Fec].
    assert (HW1 : watcher_inv s1) by (apply (watcher_inv_frame s); auto).
    assert (exists r, s' = set_runner r s1 /\
              (r = after_die site \/ exists o'', r = RDie site e o'')) as (r & -> & Hr').
    { destruct o'; simplify_eq; eauto 6. }
    split; [frame_w s1|].
    unfold runner_inv. simpl. rewrite Fwa, Fph.
    destruct Hr' as [->|[o'' ->]]; [destruct site; exact I|exact HR].
  - (* RJob *)
    destruct (job (bin s)); simplify_eq; (split; [frame_w s|exact I]).
  - (* RWaitDone *)
    destruct (done (bin s)); simplify_eq. split; [frame_w s|exact I].
  - discriminate.
Qed.

Lemma lifecycle_inv_watch s s' :
  lifecycle_inv s -> watcher_step s = Some s' -> lifecycle_inv s'.
Proof.
  intros [HW HR] Hs. unfold watcher_step in Hs. unfold watcher_inv in HW.
  assert (HR' : watcher s <> WNone -> forall w p,
             runner_inv (set_watcher w (set_phase p s))).
  { intros Hn w p. unfold runner_inv in *. simpl.
    destruct (runner s); auto; try (destruct HR; congruence).
    destruct HR as [HR|[HR _]]; [auto|congruence]. }
  destruct (watcher s) eqn:Hw; try discriminate.
  - (* WWait *)
    destruct (phase s) eqn:Hp; try discriminate.
    destruct (cmd (bin s)) as [c|]; [|discriminate]. simplify_eq.
    destruct HW as (Hf & Hd & _). split.
    + unfold watcher_inv. simpl. eauto.
    + apply (runner_inv_frame (set_watcher (WClassify (waitError st)) (set_phase (PReaped st) s)));
        auto; apply HR'; congruence.
  - (* WClassify *)
    destruct HW as (Hf & Hd & st & Hp & ->).
    assert (HRs : forall evs, runner_inv (set_watcher WClose (emit evs s))).
    { intros evs. apply (runner_inv_frame (set_watcher WClose (set_phase (phase s) s))); auto; apply HR'; congruence. }
    assert (Hrp : reaped (phase s)) by (now exists st).
    destruct (waitError st) as [e|] eqn:He.
    + apply waitError_Some in He. subst e.
      destruct (negb (exiting (bin s))); simplify_eq; (split; [|apply HRs]);
        unfold watcher_inv, classified; simpl; rewrite fired_app, Hf; simpl;
        rewrite ?fired_runErrorCallbacks, ?fired_runExitCallbacks; eauto.
    + simplify_eq. split; [|apply HRs].
      unfold watcher_inv, classified; simpl; rewrite fired_app, Hf; simpl;
        rewrite ?fired_runExitCallbacks; eauto.
  - (* WClose *)
    simplify_eq. destruct HW as (Hd & Hp & Hc). split.
    + unfold watcher_inv. simpl. auto.
    + apply (runner_inv_frame (set_watcher WDone (set_phase (phase s) s))); auto; apply HR'; congruence.
Qed.

Lemma lifecycle_inv_step sc s m s' :
  lifecycle_inv s -> step sc s m = Some s' -> lifecycle_inv s'.
Proof.
  intros Hinv Hs. destruct m as [| |i|st]; simpl in Hs.
  - eapply lifecycle_inv_run; eauto.
  - eapply lifecycle_inv_watch; eauto.
  - destruct Hinv as [HW HR]. unfold exit_step in Hs.
    destruct (callers s !! i) as [o|]; [|discriminate].
    destruct (once_step ByExit o s) as [[o' s1]|] eqn:Ho; [|discriminate].
    simplify_eq. destruct (once_step_frame _ _ _ _ _ Ho) as [Fph Fce Fru Fwa Fca Ffi Fdo Fcm Fen Fxc Fec]. split.
    + apply (watcher_inv_frame s); auto.
    + apply (runner_inv_frame s); auto.
  - destruct Hinv as [HW HR].
    destruct (phase s) eqn:Hp; simplify_eq. split.
    + unfold watcher_inv, running, reaped in *. simpl. rewrite Hp in HW.
      destruct (watcher s); try tauto.
      * destruct HW as (? & ? & ?). eauto 6.
      * destruct HW as (_ & _ & st' & ? & _). discriminate.
      * destruct HW as (_ & [st' ?] & _). discriminate.
      * destruct HW as (_ & [st' ?] & _). discriminate.
    + unfold runner_inv, running in *. simpl. rewrite Hp in HR.
      destruct (runner s); try tauto; try (destruct HR; discriminate).
      * destruct HR as [? _]. eauto.
      * destruct HR as [?|[_ ?]]; [auto|discriminate].
Qed.

Lemma lifecycle_inv_init b n : done b = false -> lifecycle_inv (init b n).
Proof. intros Hd. split; [unfold watcher_inv|unfold runner_inv]; simpl; auto. Qed.

Lemma signal_calls_app t1 t2 :
  signal_calls (t1 ++ t2) = signal_calls t1 + signal_calls t2.
Proof. unfold signal_calls. now rewrite List.filter_app, length_app. Qed.

Lemma signals_le_calls t : signals t <= signal_calls t.
Proof.
  unfold signals, signal_calls. induction t as [|ev t IH]; simpl; [lia|].
  destruct ev as [[]| | | | |]; simpl; lia.
Qed.

Lemma sum_list_insert (w : OncePc -> nat) (l : list OncePc) i o o' :
  l !! i = Some o ->
  sum_list (w <$> <[i:=o']> l) + w o = sum_list (w <$> l) + w o'.
Proof.
  revert i. induction l as [|x l IH]; intros [|i] H; simplify_eq/=; [lia|].
  specialize (IH i H). lia.
Qed.

Lemma once_step_effect k o s o' s' :
  once_step k o s = Some (o', s') -> once_effect s s' o o'.
Proof.
  unfold once_step. intros H.
  destruct k, o; repeat case_match; simplify_eq.
  all: solve [econstructor; simpl; try assumption; try reflexivity;
              rewrite ?signal_calls_app; unfold signal_calls; simpl; lia].
Qed.

Lemma once_inv_effect s s1 s' o o' o'' :
  once_effect s s1 o o' ->
  bin s' = bin s1 -> trace s' = trace s1 ->
  (o'' = o' \/ (o' = OReturned /\ o'' = OEnter)) ->
  moved before_signal s s' o o'' -> moved after_signal s s' o o'' ->
  moved returned s s' o o'' ->
  done (bin s1) = done (bin s) ->
  before_signal o <= tally before_signal s ->
  after_signal o <= tally after_signal s ->
  once_inv s -> once_inv s'.
Proof.
  unfold moved, once_inv. intros Heff -> -> Ho'' Hb Ha Hr Hd Hib Hia Hinv.
  destruct Heff;
    repeat match goal with
           | H : terminateOnce _ = _ |- _ => rewrite H in *
           | H : signal_calls _ = _ |- _ => rewrite H in *
           | H : done _ = _ |- _ => rewrite H in *
           end;
    destruct Ho'' as [->|[? ->]]; subst; simpl in *;
    destruct (terminateOnce (bin s)); simpl in *; try discriminate;
    destruct_and?; repeat split; intros; auto; lia.
Qed.

Lemma sum_list_lookup_le (w : OncePc -> nat) (l : list OncePc) i o :
  l !! i = Some o -> w o <= sum_list (w <$> l).
Proof.
  revert i. induction l as [|x l IH]; intros [|i] H; simplify_eq/=; [lia|].
  specialize (IH i H). lia.
Qed.

Lemma once_inv_frame s s' :
  terminateOnce (bin s') = terminateOnce (bin s) ->
  (forall w, w OEnter = 0 -> tally w s' = tally w s) ->
  signal_calls (trace s') = signal_calls (trace s) ->
  (done (bin s) = true -> done (bin s') = true) ->
  once_inv s -> once_inv s'.
Proof.
  unfold once_inv. intros -> Ht -> Hd.
  rewrite !Ht by reflexivity.
  destruct (terminateOnce (bin s)); intuition.
Qed.

Lemma signal_calls_runExitCallbacks b : signal_calls (runExitCallbacks b) = 0.
Proof.
  unfold signal_calls, runExitCallbacks.
  induction (exitCallbacks b); simpl; auto.
Qed.

Lemma signal_calls_runErrorCallbacks b e : signal_calls (runErrorCallbacks b e) = 0.
Proof.
  unfold signal_calls, runErrorCallbacks.
  induction (errorCallbacks b); simpl; auto.
Qed.

Ltac frame_o s :=
  apply (once_inv_frame s); simpl;
  [reflexivity
  |intros w Hw; unfold tally; simpl; rewrite ?Hw; try reflexivity
  |rewrite ?signal_calls_app, ?signal_calls_runExitCallbacks,
     ?signal_calls_runErrorCallbacks; unfold signal_calls; simpl; lia
  |auto
  |assumption].

Lemma once_inv_run sc s s' :
  once_inv s -> runner_step sc s = Some s' -> once_inv s'.
Proof.
  intros Hinv Hs. unfold runner_step in Hs.
  destruct (runner s) eqn:Hr.
  9: { (* RDie *)
    destruct (once_step (ByDie e) o s) as [[o' s1]|] eqn:Ho; [|discriminate].
    pose proof (once_step_effect _ _ _ _ _ Ho) as Heff.
    destruct (once_step_frame _ _ _ _ _ Ho) as [Fph Fce Fru Fwa Fca Ffi Fdo Fcm Fen Fxc Fec].
    assert (exists r o'', s' = set_runner r s1 /\
              (o'' = o' \/ (o' = OReturned /\ o'' = OEnter)) /\
              forall w, w OEnter = 0 ->
                        match r with RDie _ _ x => w x | _ => 0 end = w o'')
      as (r & o'' & -> & Ho'' & Hr').
    { destruct o'; simplify_eq;
        try (eexists _, _; split; [reflexivity|split; [left; reflexivity|reflexivity]]).
      exists (after_die site), OEnter.
      split; [reflexivity|]. split; [right; auto|]. intros w Hw. rewrite Hw.
      now destruct site. }
    apply (once_inv_effect s s1 _ o o' o'' Heff); auto; unfold moved, tally; simpl;
      rewrite ?Hr, ?Fca, ?Hr'; auto; lia. }
  all: repeat case_match; simplify_eq.
  all: frame_o s; rewrite Hr; reflexivity.
Qed.

Lemma once_inv_step sc s m s' :
  once_inv s -> step sc s m = Some s' -> once_inv s'.
Proof.
  intros Hinv Hs. destruct m as [| |i|st]; simpl in Hs.
  - eapply once_inv_run; eauto.
  - unfold watcher_step in Hs.
    repeat case_match; simplify_eq; frame_o s.
  - unfold exit_step in Hs.
    destruct (callers s !! i) as [o|] eqn:Hi; [|discriminate].
    destruct (once_step ByExit o s) as [[o' s1]|] eqn:Ho; [|discriminate].
    simplify_eq.
    pose proof (once_step_effect _ _ _ _ _ Ho) as Heff.
    destruct (once_step_frame _ _ _ _ _ Ho) as [Fph Fce Fru Fwa Fca Ffi Fdo Fcm Fen Fxc Fec].
    apply (once_inv_effect s s1 _ o o' o' Heff); auto; unfold moved, tally; simpl;
      rewrite ?Fru, ?Fca.
    1-3: match goal with |- context [sum_list (?w <$> _)] =>
                      pose proof (sum_list_insert w _ _ _ o' Hi); lia end.
    1-2: match goal with |- context [sum_list (?w <$> _)] =>
                      pose proof (sum_list_lookup_le w _ _ _ Hi); lia end.
  - repeat case_match; simplify_eq; frame_o s.
Qed.

Lemma once_inv_init b n : terminateOnce b = OnceFresh -> once_inv (init b n).
Proof.
  intros Hf. unfold once_inv, init, tally. simpl. rewrite Hf.
  assert (forall w, w OEnter = 0 -> sum_list (w <$> replicate n OEnter) = 0) as H.
  { intros w Hw. induction n; simpl; [reflexivity|]. rewrite Hw. auto. }
  rewrite !H by reflexivity. auto.
Qed.

(** *** The environment of the child *)



End Lifecycle.

Section Outcomes.
Import Proc.

(** *** The polling loop *)

Lemma waited_app t1 t2 : waited (t1 ++ t2) = (waited t1 + waited t2)%Z.
Proof.
  induction t1 as [|ev t1 IH]; [reflexivity|].
  destruct ev; simpl; rewrite ?IH; lia.
Qed.

Lemma dials_app t1 t2 : dials (t1 ++ t2) = dials t1 + dials t2.
Proof. unfold dials. now rewrite List.filter_app, length_app. Qed.

Lemma waited_quiet t :
  Forall (fun ev => is_tick ev = false) t -> waited t = 0%Z.
Proof.
  induction 1 as [|ev t Hev _ IH]; [reflexivity|].
  destruct ev; simpl in *; try discriminate; exact IH.
Qed.

Lemma dials_quiet t :
  Forall (fun ev => is_dial ev = false) t -> dials t = 0.
Proof.
  unfold dials. induction 1 as [|ev t Hev _ IH]; [reflexivity|].
  simpl. now rewrite Hev.
Qed.

Lemma once_step_polls k o s o' s' :
  once_step k o s = Some (o', s') ->
  waited (trace s') = waited (trace s) /\ dials (trace s') = dials (trace s).
Proof.
  unfold once_step. intros H.
  destruct k, o; repeat case_match; simplify_eq; simpl;
    rewrite ?waited_app, ?dials_app; simpl; unfold dials; simpl; split; lia.
Qed.

Lemma callbacks_polls b :
  (waited (runExitCallbacks b) = 0%Z /\ dials (runExitCallbacks b) = 0) /\
  forall e, waited (runErrorCallbacks b e) = 0%Z /\ dials (runErrorCallbacks b e) = 0.
Proof.
  unfold runExitCallbacks, runErrorCallbacks. split; [|intros e]; split;
    first [apply waited_quiet|apply dials_quiet]; apply Forall_map, Forall_true; reflexivity.
Qed.

Lemma poll_inv_frame s s' :
  runner s' = runner s -> waited (trace s') = waited (trace s) ->
  dials (trace s') = dials (trace s) -> poll_inv s -> poll_inv s'.
Proof. unfold poll_inv. intros -> -> ->. exact id. Qed.

Lemma poll_inv_step sc s m s' :
  poll_inv s -> step sc s m = Some s' -> poll_inv s'.
Proof.
  intros Hinv Hs. destruct m as [| |i|st]; simpl in Hs.
  - unfold runner_step in Hs. unfold poll_inv in Hinv.
    destruct (runner s) eqn:Hr.
    9: { destruct (once_step (ByDie e) o s) as [[o' s1]|] eqn:Ho; [|discriminate].
         destruct (once_step_frame _ _ _ _ _ Ho) as [Fph Fce Fru Fwa Fca Ffi Fdo Fcm Fen Fxc Fec].
         destruct (once_step_polls _ _ _ _ _ Ho) as [Hw Hd].
         assert (exists r, s' = set_runner r s1 /\
                   (r = after_die site \/ exists o'', r = RDie site e o'')) as (r & -> & Hr').
         { destruct o'; simplify_eq; eauto 6. }
         unfold poll_inv. simpl. rewrite Hw, Hd.
         destruct Hr' as [->|[o'' ->]]; [destruct site; exact I|exact Hinv]. }
    all: repeat case_match; simplify_eq; unfold poll_inv; simpl.
    all: rewrite ?waited_app, ?dials_app; simpl; unfold dials in *; simpl.
    all: try match goal with H : (_ <? _) = true |- _ => apply Nat.ltb_lt in H end.
    all: try match goal with H : (_ <? _) = false |- _ => apply Nat.ltb_ge in H end.
    all: unfold portCheckMaxAttempts, portCheckWaitTime in *; try exact I.
    all: destruct_and?; repeat split; try lia.
    all: assert (i = 40) as -> by lia; lia.
  - unfold watcher_step in Hs.
    destruct (callbacks_polls (bin s)) as [[Hx1 Hx2] He].
    repeat case_match; simplify_eq;
      (apply (poll_inv_frame s); [reflexivity| | |assumption]); simpl;
      rewrite ?waited_app, ?dials_app, ?Hx1, ?Hx2, ?(proj1 (He _)), ?(proj2 (He _)); lia.
  - unfold exit_step in Hs.
    destruct (callers s !! i) as [o|]; [|discriminate].
    destruct (once_step ByExit o s) as [[o' s1]|] eqn:Ho; [|discriminate].
    simplify_eq.
    destruct (once_step_frame _ _ _ _ _ Ho) as [Fph Fce Fru Fwa Fca Ffi Fdo Fcm Fen Fxc Fec].
    destruct (once_step_polls _ _ _ _ _ Ho) as [Hw Hd].
    apply (poll_inv_frame s); auto.
  - repeat case_match; simplify_eq. apply (poll_inv_frame s); auto.
Qed.

Lemma poll_inv_init b n : poll_inv (init b n).
Proof. split; reflexivity. Qed.

(** *** A failed spawn *)

Lemma never_spawned_step sc s m s' :
  sc_start sc <> None ->
  never_spawned s -> step sc s m = Some s' -> never_spawned s'.
Proof.
  unfold never_spawned. intros Hfail (Hr & Hw & Hp) Hs.
  destruct m as [| |i|st]; simpl in Hs.
  - unfold runner_step in Hs.
    destruct (runner s) eqn:Hrs; simpl in Hr; try contradiction.
    5: { destruct (once_step (ByDie e) o s) as [[o' s1]|] eqn:Ho; [|discriminate].
         destruct (once_step_frame _ _ _ _ _ Ho) as [Fph Fce Fru Fwa Fca Ffi Fdo Fcm Fen Fxc Fec].
         assert (exists r, s' = set_runner r s1 /\
                   (r = after_die site \/ exists o'', r = RDie site e o'')) as (r & -> & Hr').
         { destruct o'; simplify_eq; eauto 6. }
         simpl. rewrite Fwa, Fph.
         destruct Hr' as [->|[o'' ->]]; [destruct site|]; simpl; auto. }
    all: repeat case_match; simplify_eq; simpl; auto; try congruence.
    all: repeat split; auto; discriminate.
  - unfold watcher_step in Hs. rewrite Hw in Hs. discriminate.
  - unfold exit_step in Hs.
    destruct (callers s !! i) as [o|]; [|discriminate].
    destruct (once_step ByExit o s) as [[o' s1]|] eqn:Ho; [|discriminate].
    simplify_eq.
    destruct (once_step_frame _ _ _ _ _ Ho) as [Fph Fce Fru Fwa Fca Ffi Fdo Fcm Fen Fxc Fec].
    simpl. rewrite Fru, Fwa, Fph. auto.
  - rewrite Hp in Hs. discriminate.
Qed.

(** *** The process of the command *)

Lemma process_inv_step sc s m s' :
  process_inv s -> step sc s m = Some s' -> process_inv s'.
Proof.
  unfold process_inv. intros Hinv Hs.
  destruct m as [| |i|st]; simpl in Hs.
  - unfold runner_step in Hs. destruct (runner s) eqn:Hr.
    9: { destruct (once_step (ByDie e) o s) as [[o' s1]|] eqn:Ho; [|discriminate].
         destruct (once_step_frame _ _ _ _ _ Ho) as [Fph Fce Fru Fwa Fca Ffi Fdo Fcm Fen Fxc Fec].
         assert (exists r, s' = set_runner r s1) as [r ->]
             by (destruct o'; simplify_eq; eauto).
         simpl. rewrite Fcm, Fph. exact Hinv. }
    all: repeat case_match; simplify_eq; simpl; try exact Hinv.
    all: intros c' Hc' Hp'; simplify_eq; simpl in *; try discriminate; eauto.
  - unfold watcher_step in Hs.
    repeat case_match; simplify_eq; simpl; try exact Hinv.
    intros c' _ _. discriminate.
  - unfold exit_step in Hs.
    destruct (callers s !! i) as [o|]; [|discriminate].
    destruct (once_step ByExit o s) as [[o' s1]|] eqn:Ho; [|discriminate].
    simplify_eq.
    destruct (once_step_frame _ _ _ _ _ Ho) as [Fph Fce Fru Fwa Fca Ffi Fdo Fcm Fen Fxc Fec].
    simpl. rewrite Fcm, Fph. exact Hinv.
  - repeat case_match; simplify_eq; simpl. intros c' _ _. discriminate.
Qed.

(** The signal of [terminate] always has a target: the branch of
    [once_step] without a child is never taken after [isRunning]. *)
Lemma isRunning_spawned sc b n ms s :
  unstarted b -> exec sc (init b n) ms = Some s ->
  isRunning (bin s) = true -> phase s <> PNone.
Proof.
  intros (Hc & _) Hx Hr.
  assert (Hinv : process_inv s).
  { eapply (exec_invariant sc process_inv); eauto using process_inv_step.
    unfold process_inv. simpl. rewrite Hc. discriminate. }
  unfold isRunning in Hr. destruct (cmd (bin s)) as [c|] eqn:Hcmd; [|discriminate].
  apply andb_true_iff in Hr as [Hp _]. eapply Hinv; eauto.
Qed.

(** *** What the callbacks can be given *)

Lemma fired_In ev t : In ev (fired t) <-> In ev t /\ is_callback ev = true.
Proof. apply List.filter_In. Qed.

(** The only error that ever reaches an error callback is the error of
    [cmd.Wait]: [die] logs the error it is given and passes it to nobody. *)
Lemma error_callbacks_carry_wait_error s cb e :
  lifecycle_inv s -> In (EvErrorCallback cb e) (trace s) -> exists st, e = ErrExit st.
Proof.
  intros [HW _] Hin.
  assert (Hf : In (EvErrorCallback cb e) (fired (trace s))) by (now apply fired_In).
  unfold watcher_inv, classified in HW.
  assert (Hc : classified s -> exists st, e = ErrExit st).
  { intros [Hx|[st Hx]]; rewrite Hx in Hf.
    - apply in_map_iff in Hf as (? & ? & _). discriminate.
    - apply in_map_iff in Hf as (? & [= _ <-] & _). now exists st. }
  destruct (watcher s); destruct_and?;
    try (match goal with H : fired _ = [] |- _ => rewrite H in Hf; destruct Hf end);
    auto.
Qed.

(** Until the watcher has classified the exit no callback has fired, and
    afterwards one class has, once. *)
Lemma one_class_once s :
  lifecycle_inv s ->
  match watcher s with
  | WClose | WDone => classified s
  | _ => fired (trace s) = []
  end.
Proof.
  intros [HW _]. unfold watcher_inv in HW. destruct (watcher s); tauto.
Qed.

Lemma reachable_lifecycle sc b n ms s :
  unstarted b -> exec sc (init b n) ms = Some s -> lifecycle_inv s.
Proof.
  intros (_ & Hd & _) Hx.
  eapply (exec_invariant sc lifecycle_inv); eauto using lifecycle_inv_step.
  now apply lifecycle_inv_init.
Qed.

Lemma reachable_once sc b n ms s :
  unstarted b -> exec sc (init b n) ms = Some s -> once_inv s.
Proof.
  intros (_ & _ & _ & Hf) Hx.
  eapply (exec_invariant sc once_inv); eauto using once_inv_step.
  now apply once_inv_init.
Qed.

End Outcomes.

(** ** The claims on the life of one process *)

(** C1: when the spawn fails, [Run] returns after [die] and the watcher is
    never created, as claimed; but no error callback is called: [die] only
    logs the spawn error.  Here the handle has one error callback, the
    spawn fails, [Run] has returned, and the trace holds the two log lines
    of [die] and nothing else. *)
Theorem Run_failed_start_calls_nobody :
  exists s,
    Proc.exec Examples.no_spawn (Proc.init Examples.watched 0) Examples.run_to_failed_start
    = Some s /\
    Proc.runner s = Proc.RReturned /\
    Proc.watcher s = Proc.WNone /\
    Proc.phase s = Proc.PNone /\
    errorCallbacks (Proc.bin s) = [7] /\
    Proc.fired (Proc.trace s) = [] /\
    Proc.trace s =
      [Proc.EvLog (Proc.LogDying
         (ErrStart (ErrSys "fork/exec /opt/tool/bin/tool: permission denied")));
       Proc.EvLog Proc.LogDied].
Proof. eexists. split; [vm_compute; reflexivity|]. repeat split. Qed.

(** On every schedule of a run whose spawn fails, the watcher is not
    created and no callback is ever called. *)
Lemma no_callback_without_spawn (sc : Proc.Scenario) (b : Binary) (n : nat)
      (ms : list Proc.Move) (s : Proc.Sys) :
  Proc.unstarted b -> Proc.sc_start sc <> None ->
  Proc.exec sc (Proc.init b n) ms = Some s ->
  Proc.watcher s = Proc.WNone /\ Proc.phase s = Proc.PNone /\
  Proc.fired (Proc.trace s) = [].
Proof.
  intros Hu Hfail Hx.
  assert (Hn : Proc.never_spawned s).
  { eapply (exec_invariant sc Proc.never_spawned); eauto using never_spawned_step.
    repeat split. }
  destruct Hn as (_ & Hw & Hp). repeat split; auto.
  pose proof (one_class_once s (reachable_lifecycle sc b n ms s Hu Hx)) as H1.
  now rewrite Hw in H1.
Qed.

(** On every schedule, [die] is reached from the polling loop only after
    40 ticks of 2 seconds and 40 dials. *)
Lemma port_timeout_after_full_window (sc : Proc.Scenario) (b : Binary) (n : nat)
      (ms : list Proc.Move) (s : Proc.Sys) (e : error) (o : Proc.OncePc) :
  Proc.exec sc (Proc.init b n) ms = Some s ->
  Proc.runner s = Proc.RDie Proc.AtPort e o ->
  Proc.waited (Proc.trace s) = (40 * portCheckWaitTime)%Z /\
  Proc.dials (Proc.trace s) = 40.
Proof.
  intros Hx Hr.
  assert (Hinv : Proc.poll_inv s).
  { eapply (exec_invariant sc Proc.poll_inv); eauto using poll_inv_step.
    apply poll_inv_init. }
  unfold Proc.poll_inv in Hinv. rewrite Hr in Hinv. exact Hinv.
Qed.

(** On every schedule, an error callback is only ever called with the
    error of [cmd.Wait]: never with the spawn error, never with the
    readiness error. *)
Lemma error_callback_gets_wait_error (sc : Proc.Scenario) (b : Binary) (n : nat)
      (ms : list Proc.Move) (s : Proc.Sys) (cb : callback) (e : error) :
  Proc.unstarted b -> Proc.exec sc (Proc.init b n) ms = Some s ->
  In (Proc.EvErrorCallback cb e) (Proc.trace s) -> exists st, e = ErrExit st.
Proof.
  intros Hu Hx. apply error_callbacks_carry_wait_error.
  eapply reachable_lifecycle; eauto.
Qed.

(** C2: with a port that never opens, [Run] waits 40 ticks of 2 seconds and
    dials 40 times, then [die] sends SIGTERM and waits for the watcher, as
    claimed; but the error callback is called with the error of
    [cmd.Wait] (here: killed by SIGTERM), not with the readiness error,
    which [die] only logs. *)
Theorem Run_port_timeout_reports_wait_error :
  exists s,
    Proc.exec Examples.closed_port (Proc.init (WithPort 5432 Examples.watched) 0)
              Examples.run_to_timeout = Some s /\
    Proc.runner s = Proc.RReturned /\
    Proc.waited (Proc.trace s) = (40 * portCheckWaitTime)%Z /\
    Proc.dials (Proc.trace s) = 40 /\
    Proc.signals (Proc.trace s) = 1 /\
    Proc.phase s = Proc.PReaped (Signaled Proc.SIGTERM) /\
    Proc.fired (Proc.trace s) =
      [Proc.EvErrorCallback 7 (ErrExit (Signaled Proc.SIGTERM))] /\
    In (Proc.EvLog (Proc.LogDying
          (ErrPort "tool" 5432
             (Some (ErrSys "dial tcp 127.0.0.1:5432: connect: connection refused")))))
       (Proc.trace s).
Proof.
  eexists. split; [vm_compute; reflexivity|].
  repeat split. simpl. repeat (first [left; reflexivity|right]).
Qed.

(** The same defect with a child that has ended by itself with status 0
    before the polling gives up: [die] finds nothing to terminate, the
    readiness error is logged and lost, and the only callbacks that have
    fired are the exit callbacks. *)
Lemma Run_port_timeout_after_exit :
  exists s,
    Proc.exec Examples.closed_port
              (Proc.init (AsJob (WithPort 5432 Examples.watched)) 0)
              Examples.launcher_to_timeout = Some s /\
    Proc.runner s = Proc.RReturned /\
    Proc.dials (Proc.trace s) = 40 /\
    Proc.signal_calls (Proc.trace s) = 0 /\
    Proc.fired (Proc.trace s) = [Proc.EvExitCallback 3].
Proof. eexists. split; [vm_compute; reflexivity|]. repeat split. Qed.

(** C3: when the spawn fails neither class of callbacks fires.  Here a job
    with one exit callback and one error callback is run, the spawn fails,
    [Run] has returned, no callback was called, and no goroutine is left
    that could call one. *)
Theorem Run_failed_start_fires_neither_class :
  exists s,
    Proc.exec Examples.no_spawn (Proc.init (AsJob Examples.watched) 0)
              Examples.run_to_failed_start = Some s /\
    Proc.runner s = Proc.RReturned /\
    exitCallbacks (Proc.bin s) = [3] /\
    errorCallbacks (Proc.bin s) = [7] /\
    Proc.fired (Proc.trace s) = [] /\
    forall m, Proc.step Examples.no_spawn s m = None.
Proof.
  eexists. split; [vm_compute; reflexivity|].
  repeat split. intros [| |i|st]; reflexivity.
Qed.

(** When the spawn succeeds, the callbacks that have fired on any schedule
    are none before the watcher has classified the exit, and afterwards
    one class, once: the exit callbacks, or the error callbacks with the
    error of [cmd.Wait]. *)
Lemma spawned_run_fires_one_class (sc : Proc.Scenario) (b : Binary) (n : nat)
      (ms : list Proc.Move) (s : Proc.Sys) :
  Proc.unstarted b -> Proc.exec sc (Proc.init b n) ms = Some s ->
  match Proc.watcher s with
  | Proc.WClose | Proc.WDone => Proc.classified s
  | _ => Proc.fired (Proc.trace s) = []
  end.
Proof. intros Hu Hx. eapply one_class_once, reachable_lifecycle; eauto. Qed.






(** The guard of [Exit] also lets a call return while the watcher, which
    has waited for the child, has not yet called the callbacks nor closed
    [done]. *)
Lemma Exit_during_classification :
  exists s,
    Proc.exec Examples.quiet (Proc.init Examples.watched 1)
              Examples.exit_during_classification = Some s /\
    Proc.callers s = [Proc.OReturned] /\
    Proc.watcher s = Proc.WClassify None /\
    Proc.fired (Proc.trace s) = [] /\ done (Proc.bin s) = false.
Proof. eexists. split; [vm_compute; reflexivity|]. repeat split. Qed.



(** * More of the code *)

(** ** The errors of path resolution, and the builder methods *)

Section PathFailures.
Import Path.
Variable h : Host.

(** Chains of links compose, and the loop follows them. *)
Lemma chain_app n m p q r : chain h n p q -> chain h m q r -> chain h (n + m) p r.
Proof.
  intros Hc. induction Hc as [p|n p p' q Hl Hr Hc IH]; intros Hm; simpl; [exact Hm|].
  eapply chain_link; eauto.
Qed.

Lemma dereferenceLinks_follow n p q fuel :
  chain h n p q ->
  dereferenceLinks h (n + fuel) p = dereferenceLinks h fuel q.
Proof.
  intros Hc. induction Hc as [p|n p p' q Hl Hr Hc IH]; simpl; [reflexivity|].
  now rewrite Hl, Hr.
Qed.

Lemma dereferenceLinks_short n p q fuel :
  chain h n p q -> fuel <= n -> dereferenceLinks h fuel p = None.
Proof.
  intros Hc. revert fuel. induction Hc as [p|n p p' q Hl Hr Hc IH]; intros fuel Hf.
  - now replace fuel with 0 by lia.
  - destruct fuel as [|fuel]; [reflexivity|]. simpl. rewrite Hl, Hr. apply IH. lia.
Qed.

Lemma chain_cycle n p k : chain h (S n) p p -> chain h (k * S n) p p.
Proof.
  intros Hc. induction k as [|k IH]; simpl; [constructor|].
  change (S (n + k * S n)) with (S n + k * S n). eapply chain_app; eauto.
Qed.

(** A chain of links that leads back to its start never ends. *)
Lemma dereferenceLinks_cycle n p fuel :
  chain h (S n) p p -> dereferenceLinks h fuel p = None.
Proof.
  intros Hc. apply (dereferenceLinks_short (fuel * S n) p p); [now apply chain_cycle|nia].
Qed.

Lemma dereferenceLinks_error fuel p e :
  dereferenceLinks h fuel p = Some (Err e) ->
  exists n q, chain h n p q /\ isSymlink h q = true /\ os_Readlink h q = Err e.
Proof.
  revert p. induction fuel as [|fuel IH]; intros p; simpl; [discriminate|].
  destruct (isSymlink h p) eqn:Hl; [|discriminate].
  destruct (os_Readlink h p) as [p'|e'] eqn:Hr.
  - intros H. destruct (IH _ H) as (n & q & Hc & Hq & He).
    exists (S n), q. split; [eapply chain_link; eauto|auto].
  - intros [= <-]. exists 0, p. split; [constructor|auto].
Qed.

Lemma dereferenceLinks_fails n p q e fuel :
  chain h n p q -> isSymlink h q = true -> os_Readlink h q = Err e -> n < fuel ->
  dereferenceLinks h fuel p = Some (Err e).
Proof.
  intros Hc Hq He Hf. replace fuel with (n + S (fuel - S n)) by lia.
  rewrite (dereferenceLinks_follow n p q _ Hc). simpl. now rewrite Hq, He.
Qed.

Lemma New_failure fuel nm filename args e :
  New h fuel nm filename args = Some (Failure e) ->
  absolute filename = false /\ failure_cause h filename e.
Proof.
  unfold New, lookupPath. destruct filename as [|c rest]; [discriminate|].
  cbn [absolute]. destruct (Ascii.eqb c PathSeparator); [discriminate|].
  destruct (ContainsRune (String c rest) PathSeparator) eqn:Hc.
  - destruct (os_Getwd h) as [dir|e0] eqn:Hg; [discriminate|].
    intros [= <-]. split; [reflexivity|]. now constructor.
  - destruct (exec_LookPath h (String c rest)) as [bp|e0] eqn:Hl.
    + destruct (dereferenceLinks h fuel bp) as [[rp|e0]|] eqn:Hd; try discriminate.
      intros [= <-]. split; [reflexivity|].
      destruct (dereferenceLinks_error _ _ _ Hd) as (n & q & Hch & Hq & He).
      eapply cause_readlink; eauto.
    + intros [= <-]. split; [reflexivity|]. now constructor.
Qed.

Lemma New_fails nm filename args e :
  absolute filename = false -> filename <> EmptyString ->
  failure_cause h filename e ->
  exists fuel0, forall fuel, fuel0 <= fuel ->
    New h fuel nm filename args = Some (Failure e).
Proof.
  intros Ha Hne Hc. unfold New, lookupPath.
  destruct filename as [|c rest]; [congruence|]. simpl in Ha. rewrite Ha.
  destruct Hc as [e Hs Hg|e Hs Hl|bp n q e Hs Hl Hch Hq He]; rewrite Hs.
  - exists 0. intros fuel _. now rewrite Hg.
  - exists 0. intros fuel _. now rewrite Hl.
  - exists (S n). intros fuel Hf. rewrite Hl.
    rewrite (dereferenceLinks_fails n bp q e fuel Hch Hq He) by lia. reflexivity.
Qed.

End PathFailures.

(** X1: the errors of [New].  [New] returns an error only for a name that
    is not absolute, and the error is that of [os.Getwd] (a name with a
    separator), that of [exec.LookPath], or that of [os.Readlink] on a
    link reached from the path that [exec.LookPath] found (a bare name);
    an error of [os.Lstat] is never returned.  Each of these causes does
    make [New] return the wrapped error, and [MustNew] panic with it. *)
Theorem New_failure_causes (h : Path.Host) (nm filename : string)
        (args : list string) (e : error) :
  filename <> EmptyString ->
  (forall fuel, Path.New h fuel nm filename args = Some (Failure e) ->
     Path.absolute filename = false /\ Path.failure_cause h filename e) /\
  (Path.absolute filename = false -> Path.failure_cause h filename e ->
   exists fuel0, forall fuel, fuel0 <= fuel ->
     Path.New h fuel nm filename args = Some (Failure e) /\
     Path.MustNew h fuel nm filename args = Some (Panics (PanicError e))).
Proof.
  intros Hne. split.
  - intros fuel. apply New_failure.
  - intros Ha Hc. destruct (New_fails h nm filename args e Ha Hne Hc) as [fuel0 H].
    exists fuel0. intros fuel Hf. specialize (H fuel Hf).
    split; [exact H|]. unfold Path.MustNew. now rewrite H.
Qed.

Lemma New_failure_causes_witness :
  Path.failure_cause Examples.host "tool2"
    (ErrLookPath (ErrSys "executable file not found in $PATH")).
Proof.
  refine (proj2 (proj1 (New_failure_causes Examples.host "tool2" "tool2" []
                          (ErrLookPath (ErrSys "executable file not found in $PATH")) _)
                   3 eq_refl)).
  discriminate.
Defined.

(** X2: when the links reached from the path that [exec.LookPath] found
    form a cycle, the loop of [dereferenceLinks] never ends: [New] and
    [MustNew] return nothing, however long they run. *)
Theorem New_loops_on_link_cycle (h : Path.Host) (nm filename : string)
        (args : list string) (binaryPath p : string) (n k : nat) :
  filename <> EmptyString ->
  Path.ContainsRune filename Path.PathSeparator = false ->
  Path.exec_LookPath h filename = Ok binaryPath ->
  Path.chain h n binaryPath p -> Path.chain h (S k) p p ->
  forall fuel,
    Path.dereferenceLinks h fuel binaryPath = None /\
    Path.New h fuel nm filename args = None /\
    Path.MustNew h fuel nm filename args = None.
Proof.
  intros Hne Hs Hl Hc Hcyc fuel.
  assert (Hd : Path.dereferenceLinks h fuel binaryPath = None).
  { destruct (Nat.le_gt_cases fuel n) as [Hle|Hgt].
    - eapply dereferenceLinks_short; eauto.
    - replace fuel with (n + (fuel - n)) by lia.
      rewrite (dereferenceLinks_follow h n binaryPath p _ Hc).
      eapply dereferenceLinks_cycle; eauto. }
  split; [exact Hd|].
  assert (HN : Path.New h fuel nm filename args = None).
  { unfold Path.New, Path.lookupPath. destruct filename as [|c rest]; [congruence|].
    assert (Ascii.eqb c Path.PathSeparator = false) as ->.
    { simpl in Hs. destruct (Ascii.eqb c Path.PathSeparator); congruence. }
    now rewrite Hs, Hl, Hd. }
  split; [exact HN|]. unfold Path.MustNew. now rewrite HN.
Qed.

Lemma New_loops_on_link_cycle_witness :
  Path.New Examples.looping_host 1000 "tool" "tool" [] = None.
Proof.
  refine (proj1 (proj2 (New_loops_on_link_cycle Examples.looping_host "tool" "tool" []
                          "/usr/bin/tool" "/usr/bin/tool" 0 1 _ eq_refl eq_refl _ _ 1000))).
  - discriminate.
  - apply Path.chain_here.
  - apply (Path.chain_link _ 1 "/usr/bin/tool" "/etc/alternatives/tool"); [reflexivity..|].
    apply (Path.chain_link _ 0 "/etc/alternatives/tool" "/usr/bin/tool"); [reflexivity..|].
    apply Path.chain_here.
Defined.

Section Builders.

Lemma chained_app ms1 ms2 b : chained (ms1 ++ ms2) b = chained ms2 (chained ms1 b).
Proof. apply fold_left_app. Qed.

Lemma flat_map_snoc {A B} (f : A -> list B) l x :
  flat_map f (l ++ [x]) = flat_map f l ++ f x.
Proof. rewrite flat_map_app. simpl. now rewrite app_nil_r. Qed.

Lemma chained_fields ms b :
  let b' := chained ms b in
  name b' = name b /\ path b' = path b /\ args b' = args b /\
  cmd b' = cmd b /\ done b' = done b /\ exiting b' = exiting b /\
  terminateOnce b' = terminateOnce b /\
  job b' = job b || asks_job ms /\
  port b' = List.last (ports_of ms) (port b) /\
  Proc.entries b' = Proc.entries b ++ entries_of ms /\
  (env b' = None <-> env b = None /\ entries_of ms = []) /\
  errorCallbacks b' = errorCallbacks b ++ error_callbacks_of ms /\
  exitCallbacks b' = exitCallbacks b ++ exit_callbacks_of ms.
Proof.
  induction ms as [|m ms IH] using rev_ind; intros b'.
  - subst b'. simpl. rewrite orb_false_r, !app_nil_r. repeat split; auto. tauto.
  - subst b'. rewrite chained_app. simpl.
    destruct IH as (H1 & H2 & H3 & H4 & H5 & H6 & H7 & H8 & H9 & H10 & H11 & H12 & H13).
    unfold asks_job, ports_of, entries_of, error_callbacks_of, exit_callbacks_of in *.
    rewrite existsb_app, !flat_map_snoc. simpl.
    destruct m; simpl; rewrite ?orb_false_r, ?app_nil_r, ?last_last.
    all: repeat split; try assumption; try tauto.
    all: try (rewrite ?H8, ?orb_true_r, ?orb_false_r; reflexivity).
    all: try (rewrite ?H12, ?H13, <- ?app_assoc; reflexivity).
    + unfold Proc.entries in *. simpl.
      destruct (env (chained ms b)); simpl in *; rewrite app_assoc, <- H10; reflexivity.
    + unfold append. destruct (env (chained ms b)); discriminate.
    + unfold append. destruct (env (chained ms b)); discriminate.
    + intros [_ Hnil]. apply app_eq_nil in Hnil as [_ ?]. discriminate.
Qed.

End Builders.

(** X3: a handle made by [New] and a chain of builder calls is unstarted,
    keeps the name, the resolved path and the arguments of [New], and has
    what the chain asked for: it is a job iff [AsJob] was called, its port
    is that of the last [WithPort] (0 without one), its environment list
    is nil iff [WithEnv] was never called and holds the entries in the
    order of the calls otherwise, and its callbacks are those given to
    [OnError] and to [OnExit], each in the order of the calls. *)
Theorem built_handle (h : Path.Host) (fuel : nat) (nm filename : string)
        (args0 : list string) (b : Binary) (ms : list Builder) :
  Path.New h fuel nm filename args0 = Some (Return b) ->
  let b' := chained ms b in
  Proc.unstarted b' /\
  name b' = nm /\ path b' = path b /\ args b' = args0 /\
  job b' = asks_job ms /\
  port b' = List.last (ports_of ms) 0%Z /\
  (env b' = None <-> entries_of ms = []) /\
  Proc.entries b' = entries_of ms /\
  errorCallbacks b' = error_callbacks_of ms /\
  exitCallbacks b' = exit_callbacks_of ms.
Proof.
  intros HN b'.
  destruct (chained_fields ms b)
    as (H1 & H2 & H3 & H4 & H5 & H6 & H7 & H8 & H9 & H10 & H11 & H12 & H13).
  fold b' in H1, H2, H3, H4, H5, H6, H7, H8, H9, H10, H11, H12, H13.
  unfold Path.New in HN.
  destruct (Path.lookupPath h fuel filename) as [[rp|e|pn]|]; try discriminate.
  injection HN as <-. simpl in *.
  unfold Proc.unstarted. rewrite H4, H5, H6, H7.
  repeat split; auto; tauto.
Qed.

Lemma built_handle_witness :
  exists b,
    Path.New Examples.host 3 "db" "tool" ["-D"; "/tmp/db"] = Some (Return b) /\
    Proc.unstarted (chained [CallWithPort 5432; CallAsJob; CallWithEnv "PGDATA" "/tmp/db"] b) /\
    port (chained [CallWithPort 5432; CallAsJob; CallWithEnv "PGDATA" "/tmp/db"] b) = 5432%Z.
Proof.
  eexists. split; [reflexivity|].
  destruct (built_handle Examples.host 3 "db" "tool" ["-D"; "/tmp/db"] _
              [CallWithPort 5432; CallAsJob; CallWithEnv "PGDATA" "/tmp/db"] eq_refl)
    as (Hu & _ & _ & _ & _ & Hp & _).
  split; [exact Hu|exact Hp].
Defined.

(** ** Calls that reach the group supervisor *)

Section GroupCalls.
Import Group.

Lemma teardowns_app t1 t2 : teardowns (t1 ++ t2) = teardowns t1 + teardowns t2.
Proof. unfold teardowns. now rewrite List.filter_app, length_app. Qed.

Lemma group_errors_app t1 t2 : group_errors (t1 ++ t2) = group_errors t1 ++ group_errors t2.
Proof.
  induction t1 as [|ev t1 IH]; [reflexivity|].
  destruct ev; simpl; rewrite ?IH; reflexivity.
Qed.

Lemma exit_members_quiet w k :
  teardowns (exit_members w k) = 0 /\ group_errors (exit_members w k) = [].
Proof.
  induction k as [|k [IH1 IH2]]; [split; reflexivity|]. simpl.
  rewrite teardowns_app, group_errors_app, IH1, IH2.
  unfold exit_member. destruct (binaries w !! k); [|split; reflexivity].
  destruct (sequentialMode w); split; reflexivity.
Qed.




(** What one teardown does. *)
Lemma terminate_once w :
  exits (snd (terminate w)) = rev (binaries w) /\
  teardowns (snd (terminate w)) = 1 /\
  group_errors (snd (terminate w)) = [] /\
  terminate w = (set_terminating true w, snd (terminate w)).
Proof.
  destruct (terminate_orderly w) as (_ & (t1 & t2 & Ht & H1 & H2) & _).
  split; [rewrite Ht, exits_app, H1; exact H2|].
  unfold terminate. simpl.
  destruct (exit_members_quiet (set_terminating true w) (length (binaries w))) as [Hq1 Hq2].
  change (EvSetTerminating :: ?t) with ([EvSetTerminating] ++ t).
  rewrite !teardowns_app, !group_errors_app, Hq1, Hq2. repeat split.
Qed.

Lemma Exit_fresh w :
  w_terminateOnce w = OnceFresh -> torn_down w (fst (Exit w)) (snd (Exit w)) [].
Proof.
  intros Hf. unfold torn_down, Exit, once_do. rewrite Hf.
  destruct (terminate_once (set_w_terminateOnce OnceHeld w)) as (He & Ht & Hg & Heq).
  destruct (terminate (set_w_terminateOnce OnceHeld w)) as [w1 t] eqn:Htm.
  simpl in Heq.
  assert (w1 = set_terminating true (set_w_terminateOnce OnceHeld w)) as -> by congruence.
  clear Heq. simpl in *.
  change (EvLog LogExiting :: ?t) with ([EvLog LogExiting] ++ t).
  rewrite !exits_app, !teardowns_app, !group_errors_app, He, Ht, Hg. simpl.
  rewrite app_nil_r. repeat split.
Qed.




Lemma serve_all_cons c cs w :
  serve_all (c :: cs) w =
  (fst (serve_all cs (fst (serve c w))), snd (serve c w) ++ snd (serve_all cs (fst (serve c w)))).
Proof.
  simpl. destruct (serve c w) as [w1 t1]. simpl.
  destruct (serve_all cs w1) as [w2 t2]. reflexivity.
Qed.





Lemma entries_of_WithEnv kvs :
  entries_of (map (fun kv => CallWithEnv (fst kv) (snd kv)) kvs)
  = map (fun kv => fst kv +:+ "=" +:+ snd kv) kvs.
Proof.
  unfold entries_of. induction kvs as [|kv kvs IH]; [reflexivity|].
  cbn [map flat_map]. now rewrite IH.
Qed.

Lemma quiet_WithEnv kvs :
  let ms := map (fun kv => CallWithEnv (fst kv) (snd kv)) kvs in
  asks_job ms = false /\ ports_of ms = [] /\ error_callbacks_of ms = [] /\
  exit_callbacks_of ms = [].
Proof. induction kvs as [|kv kvs IH]; simpl; [repeat split|exact IH]. Qed.

End GroupCalls.

Section GroupEnv.

(** [WithEnv] of the worker is [WithEnv] of every binary, entry by entry. *)
Lemma WithEnv_binaries kvs w :
  Group.binaries (Group.WithEnv kvs w) =
  map (chained (map (fun kv => CallWithEnv (fst kv) (snd kv)) kvs)) (Group.binaries w) /\
  Group.w_name (Group.WithEnv kvs w) = Group.w_name w /\
  Group.sequentialMode (Group.WithEnv kvs w) = Group.sequentialMode w /\
  Group.errors (Group.WithEnv kvs w) = Group.errors w /\
  Group.w_errorCallbacks (Group.WithEnv kvs w) = Group.w_errorCallbacks w /\
  Group.terminating (Group.WithEnv kvs w) = Group.terminating w /\
  Group.w_terminateOnce (Group.WithEnv kvs w) = Group.w_terminateOnce w.
Proof.
  revert w. induction kvs as [|kv kvs IH]; intros w.
  - simpl. repeat split. unfold chained. simpl. now rewrite map_id.
  - unfold Group.WithEnv in *. simpl.
    destruct (IH (Group.set_binaries (map (WithEnv (fst kv) (snd kv)) (Group.binaries w)) w))
      as (H1 & H2 & H3 & H4 & H5 & H6 & H7).
    rewrite H1, H2, H3, H4, H5, H6, H7. simpl. rewrite map_map. repeat split.
Qed.

End GroupEnv.






(** X6: after a graceful [Exit] of a worker whose Once is fresh, the exits
    of its binaries are no errors: the closures given to [binary.OnExit]
    record nothing, call no callback and tear nothing down; what was done
    is what [Exit] did. *)
Theorem graceful_Exit_records_no_error (w : Group.Worker) (bs : list Binary) :
  Group.w_terminateOnce w = OnceFresh ->
  let r := Group.serve_all (Group.CallExit :: map Group.CallBinaryExit bs) w in
  r = Group.Exit w /\
  Group.errors (fst r) = Group.errors w /\
  Group.GetError (fst r) = Group.GetError w /\
  Group.group_errors (snd r) = [].
Proof.
  intros Hf r. subst r. rewrite serve_all_cons. simpl.
  destruct (Exit_fresh w Hf) as (H1 & H2 & H3 & H4 & H5 & H6 & H7 & H8 & H9).
  assert (Hq : forall w1, Group.terminating w1 = true ->
            Group.serve_all (map Group.CallBinaryExit bs) w1 = (w1, [])).
  { induction bs as [|b bs IH]; intros w1 Ht; [reflexivity|].
    simpl. unfold Group.onBinaryExit. rewrite Ht. simpl. now rewrite IH. }
  rewrite (Hq _ H2). simpl. rewrite app_nil_r.
  split; [now destruct (Group.Exit w)|].
  split; [exact H4|]. split; [unfold Group.GetError; now rewrite H4|exact H9].
Qed.

Lemma graceful_Exit_records_no_error_witness :
  Group.GetError
    (fst (Group.serve_all
            (Group.CallExit :: map Group.CallBinaryExit (Group.binaries Examples.group))
            Examples.group)) = None.
Proof.
  exact (proj1 (proj2 (proj2 (graceful_Exit_records_no_error Examples.group
                                (Group.binaries Examples.group) eq_refl)))).
Defined.



(** X8: [WithEnv] of a worker gives every binary every entry of the map:
    the binary keeps its other fields and its earlier entries, and gets
    one entry [key=value] per entry of the map, in the order of the
    iteration; its environment list stays nil only if it was nil and the
    map is empty.  Whatever the order of the iteration, a binary gets the
    same entries up to their order. *)
Theorem Worker_WithEnv_entries (keyToValue : list (string * string))
        (w : Group.Worker) (i : nat) (b : Binary) :
  Group.binaries w !! i = Some b ->
  exists b', Group.binaries (Group.WithEnv keyToValue w) !! i = Some b' /\
    Proc.entries b' = Proc.entries b
                        ++ map (fun kv => fst kv +:+ "=" +:+ snd kv) keyToValue /\
    (env b' = None <-> env b = None /\ keyToValue = []) /\
    name b' = name b /\ path b' = path b /\ args b' = args b /\
    port b' = port b /\ job b' = job b /\
    errorCallbacks b' = errorCallbacks b /\ exitCallbacks b' = exitCallbacks b /\
    forall other b'',
      other ≡ₚ keyToValue ->
      Group.binaries (Group.WithEnv other w) !! i = Some b'' ->
      Proc.entries b'' ≡ₚ Proc.entries b'.
Proof.
  intros Hi.
  assert (Hall : forall kvs,
            Group.binaries (Group.WithEnv kvs w) !! i
            = Some (chained (map (fun kv => CallWithEnv (fst kv) (snd kv)) kvs) b)).
  { intros kvs. destruct (WithEnv_binaries kvs w) as [-> _].
    now rewrite list_lookup_fmap, Hi. }
  assert (Hent : forall kvs,
            Proc.entries (chained (map (fun kv => CallWithEnv (fst kv) (snd kv)) kvs) b)
            = Proc.entries b ++ map (fun kv => fst kv +:+ "=" +:+ snd kv) kvs).
  { intros kvs.
    destruct (chained_fields (map (fun kv => CallWithEnv (fst kv) (snd kv)) kvs) b)
      as (_ & _ & _ & _ & _ & _ & _ & _ & _ & H10 & _).
    now rewrite H10, entries_of_WithEnv. }
  eexists. split; [apply Hall|].
  destruct (chained_fields (map (fun kv => CallWithEnv (fst kv) (snd kv)) keyToValue) b)
    as (H1 & H2 & H3 & H4 & H5 & H6 & H7 & H8 & H9 & H10 & H11 & H12 & H13).
  destruct (quiet_WithEnv keyToValue) as (Q1 & Q2 & Q3 & Q4).
  rewrite Q1 in H8. rewrite Q2 in H9. rewrite Q3 in H12. rewrite Q4 in H13.
  rewrite orb_false_r in H8. rewrite app_nil_r in H12, H13. simpl in H9.
  split; [apply Hent|]. split.
  { rewrite H11, entries_of_WithEnv. split; intros [? Hn]; split; auto.
    - now destruct keyToValue.
    - now subst. }
  repeat (split; [assumption|]).
  intros other b'' Hperm Hb''. rewrite Hall in Hb''. injection Hb'' as <-.
  rewrite !Hent. apply Permutation_app_head. now apply fmap_Permutation.
Qed.

Lemma Worker_WithEnv_entries_witness :
  exists b',
    Group.binaries (Group.WithEnv [("PGDATA", "/tmp/db"); ("LANG", "C")] Examples.group) !! 1
    = Some b' /\
    Proc.entries b' = ["PGDATA=/tmp/db"; "LANG=C"].
Proof.
  destruct (Worker_WithEnv_entries [("PGDATA", "/tmp/db"); ("LANG", "C")] Examples.group 1
              (AsJob Examples.watched) eq_refl) as (b' & Hb & He & _).
  exists b'. split; [exact Hb|exact He].
Defined.

(** ** What [Run], the watcher and [Exit] keep *)

Section MoreLifecycle.
Import Proc.

Lemma once_step_config k o s o' s' :
  once_step k o s = Some (o', s') -> same_config (bin s) (bin s').
Proof.
  unfold once_step, same_config. intros H.
  destruct k, o; repeat case_match; simplify_eq; simpl; repeat split.
Qed.

Lemma step_config sc s m s' :
  step sc s m = Some s' -> same_config (bin s) (bin s').
Proof.
  intros Hs. destruct m as [| |i|st]; simpl in Hs.
  - unfold runner_step in Hs. destruct (runner s).
    9: { destruct (once_step (ByDie e) o s) as [[o' s1]|] eqn:Ho; [|discriminate].
         apply once_step_config in Ho.
         assert (exists r, s' = set_runner r s1) as [r ->]
             by (destruct o'; simplify_eq; eauto).
         exact Ho. }
    all: repeat case_match; simplify_eq; simpl; unfold same_config; simpl; repeat split.
  - unfold watcher_step in Hs.
    repeat case_match; simplify_eq; simpl; unfold same_config; simpl; repeat split.
  - unfold exit_step in Hs.
    destruct (callers s !! i) as [o|]; [|discriminate].
    destruct (once_step ByExit o s) as [[o' s1]|] eqn:Ho; [|discriminate].
    simplify_eq. apply once_step_config in Ho. exact Ho.
  - repeat case_match; simplify_eq. unfold same_config; simpl; repeat split.
Qed.

Lemma same_config_trans b1 b2 b3 :
  same_config b1 b2 -> same_config b2 b3 -> same_config b1 b3.
Proof. unfold same_config. intuition congruence. Qed.

Lemma exec_config sc ms : forall s s',
  exec sc s ms = Some s' -> same_config (bin s) (bin s').
Proof.
  induction ms as [|m ms IH]; intros s s'; simpl.
  - intros [= <-]. unfold same_config. repeat split.
  - destruct (step sc s m) as [s1|] eqn:Hs; [|discriminate].
    intros Hx. eapply same_config_trans; [eapply step_config; eauto|eauto].
Qed.

(** The exiting flag and the phase only move forward. *)
Lemma once_step_exiting k o s o' s' :
  once_step k o s = Some (o', s') ->
  exiting (bin s) = true -> exiting (bin s') = true.
Proof.
  unfold once_step. intros H.
  destruct k, o; repeat case_match; simplify_eq; simpl; auto.
Qed.


Lemma by_status_config b b' st :
  same_config b b' -> by_status b' st = by_status b st.
Proof.
  intros (_ & _ & _ & _ & _ & _ & Hx & He).
  unfold by_status, runExitCallbacks, runErrorCallbacks. now rewrite Hx, He.
Qed.

Lemma status_inv_frame s s' :
  watcher s' = watcher s -> phase s' = phase s ->
  fired (trace s') = fired (trace s) -> same_config (bin s) (bin s') ->
  (exiting (bin s) = true -> exiting (bin s') = true) ->
  status_inv s -> status_inv s'.
Proof.
  unfold status_inv. intros -> -> -> Hc He H.
  destruct (watcher s); auto; destruct H as (st & Hp & Hf); exists st;
    (split; [exact Hp|]); intros Hx; rewrite (by_status_config _ _ _ Hc); apply Hf;
    destruct (exiting (bin s)); auto; specialize (He eq_refl); congruence.
Qed.

Lemma status_inv_step sc s m s' :
  lifecycle_inv s -> status_inv s -> step sc s m = Some s' -> status_inv s'.
Proof.
  intros [HW HR] Hinv Hs.
  pose proof (step_config _ _ _ _ Hs) as Hc.
  destruct m as [| |i|st]; simpl in Hs.
  - unfold runner_step in Hs. unfold runner_inv in HR.
    destruct (runner s) eqn:Hr.
    9: { destruct (once_step (ByDie e) o s) as [[o' s1]|] eqn:Ho; [|discriminate].
         destruct (once_step_frame _ _ _ _ _ Ho) as [Fph Fce Fru Fwa Fca Ffi Fdo Fcm Fen Fxc Fec].
         pose proof (once_step_exiting _ _ _ _ _ Ho) as Hex.
         assert (exists r, s' = set_runner r s1) as [r ->]
             by (destruct o'; simplify_eq; eauto).
         apply (status_inv_frame s); auto. }
    4: { (* RStart *)
         destruct HR as [Hw _].
         assert (watcher s' = WNone) as Hw'
             by (repeat case_match; simplify_eq; simpl; auto).
         unfold status_inv. now rewrite Hw'. }
    4: { (* RGo *) simplify_eq. unfold status_inv. simpl. exact I. }
    all: repeat case_match; simplify_eq.
    all: apply (status_inv_frame s); simpl; rewrite ?fired_app, ?app_nil_r; auto.
  - unfold watcher_step in Hs. unfold watcher_inv in HW.
    destruct (watcher s) eqn:Hw; try discriminate.
    + repeat case_match; simplify_eq. unfold status_inv. simpl. exact I.
    + destruct HW as (Hf & _ & st & Hp & ->).
      unfold status_inv, by_status.
      destruct (waitError st) as [e|] eqn:He;
        [destruct (exiting (bin s)) eqn:Hx|]; simpl in Hs; simplify_eq; simpl;
        exists st; (split; [exact Hp|]); rewrite fired_app, Hf, ?Hx; simpl;
        rewrite ?fired_runErrorCallbacks, ?fired_runExitCallbacks, He;
        try discriminate; auto.
    + simplify_eq. unfold status_inv in *. rewrite Hw in Hinv. simpl. exact Hinv.
  - unfold exit_step in Hs.
    destruct (callers s !! i) as [o|]; [|discriminate].
    destruct (once_step ByExit o s) as [[o' s1]|] eqn:Ho; [|discriminate].
    simplify_eq.
    destruct (once_step_frame _ _ _ _ _ Ho) as [Fph Fce Fru Fwa Fca Ffi Fdo Fcm Fen Fxc Fec].
    pose proof (once_step_exiting _ _ _ _ _ Ho) as Hex.
    apply (status_inv_frame s); auto.
  - destruct (phase s) eqn:Hp; simplify_eq.
    unfold status_inv in *. simpl.
    destruct (watcher s); auto; destruct Hinv as (st' & ? & _); congruence.
Qed.

Lemma status_inv_init b n : status_inv (init b n).
Proof. exact I. Qed.


Lemma graceful_inv_frame s s' :
  watcher s' = watcher s -> fired (trace s') = fired (trace s) ->
  same_config (bin s) (bin s') ->
  (exiting (bin s) = true -> exiting (bin s') = true) ->
  graceful_inv s -> graceful_inv s'.
Proof.
  unfold graceful_inv, runExitCallbacks.
  intros -> -> (_ & _ & _ & _ & _ & _ & -> & _) He [Hx H]. split; auto.
Qed.

Lemma graceful_inv_step sc s m s' :
  lifecycle_inv s -> graceful_inv s -> step sc s m = Some s' -> graceful_inv s'.
Proof.
  intros [HW HR] Hinv Hs.
  pose proof (step_config _ _ _ _ Hs) as Hc.
  destruct m as [| |i|st]; simpl in Hs.
  - unfold runner_step in Hs. unfold runner_inv in HR.
    destruct (runner s) eqn:Hr.
    9: { destruct (once_step (ByDie e) o s) as [[o' s1]|] eqn:Ho; [|discriminate].
         destruct (once_step_frame _ _ _ _ _ Ho) as [Fph Fce Fru Fwa Fca Ffi Fdo Fcm Fen Fxc Fec].
         pose proof (once_step_exiting _ _ _ _ _ Ho) as Hex.
         assert (exists r, s' = set_runner r s1) as [r ->]
             by (destruct o'; simplify_eq; eauto).
         apply (graceful_inv_frame s); auto. }
    5: { (* RGo *)
         simplify_eq. destruct HR as [Hw _]. destruct Hinv as [Hx Hf].
         rewrite Hw in Hf. split; [exact Hx|exact Hf]. }
    all: repeat case_match; simplify_eq.
    all: apply (graceful_inv_frame s); simpl; rewrite ?fired_app, ?app_nil_r; auto.
  - unfold watcher_step in Hs. destruct Hinv as [Hx Hf].
    destruct (watcher s) eqn:Hw; try discriminate.
    + repeat case_match; simplify_eq. split; [exact Hx|exact Hf].
    + rewrite Hx in Hs. simpl in Hs.
      assert (s' = set_watcher WClose (emit (runExitCallbacks (bin s)) s)) as ->
          by (destruct err; congruence).
      split; [exact Hx|]. simpl. now rewrite fired_app, Hf, fired_runExitCallbacks.
    + simplify_eq. split; [exact Hx|exact Hf].
  - unfold exit_step in Hs.
    destruct (callers s !! i) as [o|]; [|discriminate].
    destruct (once_step ByExit o s) as [[o' s1]|] eqn:Ho; [|discriminate].
    simplify_eq.
    destruct (once_step_frame _ _ _ _ _ Ho) as [Fph Fce Fru Fwa Fca Ffi Fdo Fcm Fen Fxc Fec].
    pose proof (once_step_exiting _ _ _ _ _ Ho) as Hex.
    apply (graceful_inv_frame s); auto.
  - destruct (phase s) eqn:Hp; simplify_eq. exact Hinv.
Qed.

Lemma return_inv_step sc s m s' :
  lifecycle_inv s -> return_inv s -> step sc s m = Some s' -> return_inv s'.
Proof.
  intros [HW HR] Hinv Hs.
  pose proof (step_config _ _ _ _ Hs) as (_ & _ & _ & _ & _ & Hj & _).
  unfold return_inv in *. rewrite Hj.
  destruct m as [| |i|st]; simpl in Hs.
  - unfold runner_step in Hs. unfold runner_inv in HR.
    destruct (runner s) eqn:Hr.
    9: { destruct (once_step (ByDie e) o s) as [[o' s1]|] eqn:Ho; [|discriminate].
         destruct (once_step_frame _ _ _ _ _ Ho) as [Fph Fce Fru Fwa Fca Ffi Fdo Fcm Fen Fxc Fec].
         assert (exists r, s' = set_runner r s1 /\
                   (r = after_die site \/ exists o'', r = RDie site e o'')) as (r & -> & Hr').
         { destruct o'; simplify_eq; eauto 6. }
         simpl. rewrite Fph. intros -> _.
         destruct Hr' as [Hr'|[o'' Hr']]; [|discriminate].
         destruct site; try discriminate; destruct HR as [?|[_ ?]]; auto; discriminate. }
    all: repeat case_match; simplify_eq; simpl; try discriminate; auto.
  - unfold watcher_step in Hs.
    repeat case_match; simplify_eq; simpl; auto.
    intros Hr Hj'. destruct (Hinv Hr Hj'); [congruence|auto].
  - unfold exit_step in Hs.
    destruct (callers s !! i) as [o|]; [|discriminate].
    destruct (once_step ByExit o s) as [[o' s1]|] eqn:Ho; [|discriminate].
    simplify_eq.
    destruct (once_step_frame _ _ _ _ _ Ho) as [Fph Fce Fru Fwa Fca Ffi Fdo Fcm Fen Fxc Fec].
    simpl. rewrite Fru, Fph, Fdo. exact Hinv.
  - destruct (phase s) eqn:Hp; simplify_eq. simpl.
    intros Hr Hj'. destruct (Hinv Hr Hj'); [discriminate|auto].
Qed.

(** Two invariants along a schedule, the second kept with the help of the
    first. *)
Lemma exec_invariant2 sc (P Q : Sys -> Prop) :
  (forall s m s', P s -> step sc s m = Some s' -> P s') ->
  (forall s m s', P s -> Q s -> step sc s m = Some s' -> Q s') ->
  forall ms s s', P s -> Q s -> exec sc s ms = Some s' -> Q s'.
Proof.
  intros HP HQ ms s s' Hp Hq Hx.
  assert (P s' /\ Q s') as [_ H]; [|exact H].
  apply (exec_invariant sc (fun s => P s /\ Q s)) with (ms := ms) (s := s);
    [|split; assumption|exact Hx].
  intros s0 m s1 [? ?] Hs. split; eauto.
Qed.

End MoreLifecycle.

(** ** Completion of a run and the class of its callbacks *)

Section Completion.
Import Proc.

Lemma jobError_fired cb t : jobError cb t = jobError cb (fired t).
Proof.
  unfold jobError. generalize (@None error).
  induction t as [|ev t IH]; intros acc; [reflexivity|].
  destruct ev; simpl; auto.
Qed.

Lemma jobError_exit_callbacks cb b : jobError cb (runExitCallbacks b) = None.
Proof.
  unfold jobError, runExitCallbacks.
  induction (exitCallbacks b) as [|x l IH]; simpl; auto.
Qed.

Lemma jobError_error_callbacks cb b e :
  In cb (errorCallbacks b) -> jobError cb (runErrorCallbacks b e) = Some e.
Proof.
  unfold jobError, runErrorCallbacks. intros Hin.
  assert (H : forall l acc, acc = Some e \/ In cb l ->
            fold_left (fun acc ev =>
                         match ev with
                         | EvErrorCallback cb' e0 => if Nat.eqb cb' cb then Some e0 else acc
                         | _ => acc
                         end) (map (fun cb0 => EvErrorCallback cb0 e) l) acc = Some e).
  { induction l as [|x l IH]; intros acc; simpl.
    - intros [->|[]]. reflexivity.
    - intros [->|[->|Hl]]; apply IH.
      + left. now destruct (Nat.eqb x cb).
      + left. now rewrite Nat.eqb_refl.
      + right. exact Hl. }
  apply H. right. exact Hin.
Qed.

(** The channel [done] is closed exactly when the watcher is done, and
    then the child has been waited for and one class of callbacks has been
    called. *)
Lemma done_means_classified sc b n ms s :
  unstarted b -> exec sc (init b n) ms = Some s ->
  (done (bin s) = true <-> watcher s = WDone) /\
  (done (bin s) = true -> reaped (phase s) /\ classified s).
Proof.
  intros Hu Hx.
  destruct (reachable_lifecycle sc b n ms s Hu Hx) as [HW _].
  unfold watcher_inv in HW.
  destruct (watcher s); destruct_and?; (split; [split|]); intros; simplify_eq; auto;
    congruence.
Qed.

Lemma reachable_return sc b n ms s :
  unstarted b -> exec sc (init b n) ms = Some s -> return_inv s.
Proof.
  intros Hu Hx.
  apply (exec_invariant2 sc lifecycle_inv return_inv) with (ms := ms) (s := init b n);
    eauto using lifecycle_inv_step, return_inv_step.
  - apply lifecycle_inv_init. apply Hu.
  - unfold return_inv. simpl. discriminate.
Qed.

Lemma reachable_status sc b n ms s :
  unstarted b -> exec sc (init b n) ms = Some s -> status_inv s.
Proof.
  intros Hu Hx.
  apply (exec_invariant2 sc lifecycle_inv status_inv) with (ms := ms) (s := init b n);
    eauto using lifecycle_inv_step, status_inv_step.
  - apply lifecycle_inv_init. apply Hu.
  - exact I.
Qed.

(** [Run] on a job returns after a spawn only when the watcher is done. *)
Lemma job_return_done sc b n ms s :
  unstarted b -> job b = true -> exec sc (init b n) ms = Some s ->
  runner s = RReturned -> phase s <> PNone ->
  done (bin s) = true /\ watcher s = WDone.
Proof.
  intros Hu Hj Hx Hr Hp.
  pose proof (reachable_return sc b n ms s Hu Hx) as Hret.
  destruct (exec_config sc ms _ _ Hx) as (_ & _ & _ & _ & _ & Hj' & _). simpl in Hj'.
  destruct (Hret Hr ltac:(congruence)) as [?|Hd]; [contradiction|].
  split; [exact Hd|]. now apply (done_means_classified sc b n ms s Hu Hx).
Qed.

End Completion.

(** X9: when [Run] returns on a job whose child was spawned, the channel
    [done] is closed: the child has ended and been waited for, and the
    watcher has called one class of callbacks and is done. *)
Theorem job_Run_returns_after_callbacks (sc : Proc.Scenario) (b : Binary) (n : nat)
        (ms : list Proc.Move) (s : Proc.Sys) :
  Proc.unstarted b -> job b = true ->
  Proc.exec sc (Proc.init b n) ms = Some s ->
  Proc.runner s = Proc.RReturned -> Proc.phase s <> Proc.PNone ->
  done (Proc.bin s) = true /\ Proc.watcher s = Proc.WDone /\
  Proc.reaped (Proc.phase s) /\ Proc.classified s.
Proof.
  intros Hu Hj Hx Hr Hp.
  destruct (job_return_done sc b n ms s Hu Hj Hx Hr Hp) as [Hd Hw].
  split; [exact Hd|]. split; [exact Hw|].
  now apply (done_means_classified sc b n ms s Hu Hx).
Qed.

Lemma job_Run_returns_after_callbacks_witness :
  done (Proc.bin (Examples.after Examples.quiet (AsJob Examples.watched) 0
                    (Examples.job_to_status (Exited 0)))) = true /\
  Proc.watcher (Examples.after Examples.quiet (AsJob Examples.watched) 0
                  (Examples.job_to_status (Exited 0))) = Proc.WDone.
Proof.
  destruct (job_Run_returns_after_callbacks Examples.quiet (AsJob Examples.watched) 0
              (Examples.job_to_status (Exited 0))
              (Examples.after Examples.quiet (AsJob Examples.watched) 0
                 (Examples.job_to_status (Exited 0))))
    as (Hd & Hw & _).
  - repeat split.
  - reflexivity.
  - vm_compute. reflexivity.
  - reflexivity.
  - discriminate.
  - split; [exact Hd|exact Hw].
Defined.

(** X10: as long as [Exit] has not set the exiting flag, the callbacks that
    have fired once the watcher is done are decided by the status of the
    child alone: the exit callbacks for exit status 0, and the error
    callbacks with the exit error for any other status or a signal. *)
Theorem unrequested_exit_is_classified_by_status (sc : Proc.Scenario) (b : Binary)
        (n : nat) (ms : list Proc.Move) (s : Proc.Sys) :
  Proc.unstarted b -> Proc.exec sc (Proc.init b n) ms = Some s ->
  done (Proc.bin s) = true -> exiting (Proc.bin s) = false ->
  exists st, Proc.phase s = Proc.PReaped st /\
    (st = Exited 0 ->
     Proc.fired (Proc.trace s) = map Proc.EvExitCallback (exitCallbacks b)) /\
    (st <> Exited 0 ->
     Proc.fired (Proc.trace s) =
     map (fun cb => Proc.EvErrorCallback cb (ErrExit st)) (errorCallbacks b)).
Proof.
  intros Hu Hx Hd He.
  pose proof (reachable_status sc b n ms s Hu Hx) as Hs.
  destruct (done_means_classified sc b n ms s Hu Hx) as [Hiff _].
  apply Hiff in Hd. unfold Proc.status_inv in Hs. rewrite Hd in Hs.
  destruct Hs as (st & Hp & Hf). exists st. split; [exact Hp|].
  rewrite (Hf He).
  destruct (exec_config sc ms _ _ Hx) as (_ & _ & _ & _ & _ & _ & Hxc & Hec).
  simpl in Hxc, Hec.
  unfold Proc.by_status, Proc.runExitCallbacks, Proc.runErrorCallbacks.
  rewrite Hxc, Hec. split; [intros ->; reflexivity|].
  intros Hne. destruct st as [[| |]|]; simpl; congruence.
Qed.

Lemma unrequested_exit_is_classified_by_status_witness :
  exists st,
    Proc.phase (Examples.after Examples.quiet (AsJob Examples.watched) 0
                  (Examples.job_to_status (Exited 3))) = Proc.PReaped st /\
    (st <> Exited 0 ->
     Proc.fired (Proc.trace (Examples.after Examples.quiet (AsJob Examples.watched) 0
                               (Examples.job_to_status (Exited 3))))
     = [Proc.EvErrorCallback 7 (ErrExit st)]).
Proof.
  destruct (unrequested_exit_is_classified_by_status Examples.quiet
              (AsJob Examples.watched) 0 (Examples.job_to_status (Exited 3))
              (Examples.after Examples.quiet (AsJob Examples.watched) 0
                 (Examples.job_to_status (Exited 3))))
    as (st & Hp & _ & He).
  - repeat split.
  - vm_compute. reflexivity.
  - reflexivity.
  - reflexivity.
  - exists st. split; [exact Hp|exact He].
Defined.

(** X11: when the exiting flag is set before the watcher has classified the
    exit, no error callback is ever called afterwards, whatever the status
    of the child, and once [done] is closed the callbacks that have fired
    are the exit callbacks. *)
Theorem requested_exit_is_never_an_error (sc : Proc.Scenario) (b : Binary) (n : nat)
        (ms1 ms2 : list Proc.Move) (s1 s2 : Proc.Sys) :
  Proc.unstarted b -> Proc.exec sc (Proc.init b n) ms1 = Some s1 ->
  exiting (Proc.bin s1) = true ->
  match Proc.watcher s1 with Proc.WClose | Proc.WDone => False | _ => True end ->
  Proc.exec sc s1 ms2 = Some s2 ->
  (forall cb e, ~ In (Proc.EvErrorCallback cb e) (Proc.trace s2)) /\
  (done (Proc.bin s2) = true ->
   Proc.fired (Proc.trace s2) = map Proc.EvExitCallback (exitCallbacks b)).
Proof.
  intros Hu Hx1 He Hw Hx2.
  pose proof (reachable_lifecycle sc b n ms1 s1 Hu Hx1) as HL1.
  assert (HG1 : Proc.graceful_inv s1).
  { split; [exact He|]. destruct HL1 as [HW _]. unfold Proc.watcher_inv in HW.
    destruct (Proc.watcher s1); try contradiction; tauto. }
  assert (HG2 : Proc.graceful_inv s2).
  { apply (exec_invariant2 sc Proc.lifecycle_inv Proc.graceful_inv)
      with (ms := ms2) (s := s1); eauto using lifecycle_inv_step, graceful_inv_step. }
  assert (HL2 : Proc.lifecycle_inv s2).
  { eapply (exec_invariant sc Proc.lifecycle_inv); eauto using lifecycle_inv_step. }
  destruct HG2 as [_ HG2]. split.
  - intros cb e Hin.
    assert (Hf : In (Proc.EvErrorCallback cb e) (Proc.fired (Proc.trace s2)))
      by (now apply fired_In).
    destruct (Proc.watcher s2); rewrite HG2 in Hf; try (destruct Hf; fail);
      apply in_map_iff in Hf as (? & ? & _); discriminate.
  - intros Hd. destruct HL2 as [HW _]. unfold Proc.watcher_inv in HW.
    destruct (exec_config sc ms1 _ _ Hx1) as (_ & _ & _ & _ & _ & _ & Hc1 & _).
    destruct (exec_config sc ms2 _ _ Hx2) as (_ & _ & _ & _ & _ & _ & Hc2 & _).
    simpl in Hc1.
    destruct (Proc.watcher s2); destruct_and?; try congruence;
      rewrite HG2; unfold Proc.runExitCallbacks; congruence.
Qed.

Lemma requested_exit_is_never_an_error_witness :
  Proc.phase (Examples.after Examples.quiet Examples.watched 1
                (Examples.exit_requested ++ Examples.exit_served))
  = Proc.PReaped (Signaled Proc.SIGTERM) /\
  Proc.fired (Proc.trace (Examples.after Examples.quiet Examples.watched 1
                            (Examples.exit_requested ++ Examples.exit_served)))
  = [Proc.EvExitCallback 3].
Proof.
  split; [reflexivity|].
  destruct (requested_exit_is_never_an_error Examples.quiet Examples.watched 1
              Examples.exit_requested Examples.exit_served
              (Examples.after Examples.quiet Examples.watched 1 Examples.exit_requested)
              (Examples.after Examples.quiet Examples.watched 1
                 (Examples.exit_requested ++ Examples.exit_served)))
    as (_ & Hf).
  - repeat split.
  - vm_compute. reflexivity.
  - reflexivity.
  - exact I.
  - vm_compute. reflexivity.
  - exact (Hf eq_refl).
Defined.

(** X12: [RunAsJob] refuses a handle that is not a job.  On a job it
    registers its closure and runs; when [Run] has returned after a spawn
    and nobody has asked for the exit, the child has been waited for and
    the value returned is the error of [cmd.Wait]: nil for exit status 0,
    the exit error otherwise. *)
Theorem RunAsJob_returns_wait_error (cb : callback) (b : Binary) :
  Proc.unstarted b ->
  (job b = false -> Proc.RunAsJob cb b = Err Proc.errNotAJob) /\
  (job b = true ->
   exists b', Proc.RunAsJob cb b = Ok b' /\ Proc.unstarted b' /\
     forall sc n ms s,
       Proc.exec sc (Proc.init b' n) ms = Some s ->
       Proc.runner s = Proc.RReturned -> Proc.phase s <> Proc.PNone ->
       exiting (Proc.bin s) = false ->
       exists st, Proc.phase s = Proc.PReaped st /\
                  Proc.jobError cb (Proc.trace s) = Proc.waitError st).
Proof.
  intros Hu. unfold Proc.RunAsJob. split; intros Hj; rewrite Hj; [reflexivity|].
  simpl. eexists. split; [reflexivity|].
  assert (Hu' : Proc.unstarted (OnError cb b)) by exact Hu.
  split; [exact Hu'|]. intros sc n ms s Hx Hr Hp He.
  destruct (job_return_done sc (OnError cb b) n ms s Hu' Hj Hx Hr Hp) as (Hd & Hw).
  pose proof (reachable_status sc _ n ms s Hu' Hx) as Hs.
  unfold Proc.status_inv in Hs. rewrite Hw in Hs.
  destruct Hs as (st & Hst & Hf). exists st. split; [exact Hst|].
  rewrite jobError_fired, (Hf He). unfold Proc.by_status.
  destruct (Proc.waitError st) as [e|].
  - apply jobError_error_callbacks.
    destruct (exec_config sc ms _ _ Hx) as (_ & _ & _ & _ & _ & _ & _ & Hec).
    rewrite Hec. simpl. apply in_or_app. right. now left.
  - apply jobError_exit_callbacks.
Qed.

Lemma RunAsJob_returns_wait_error_witness :
  Proc.RunAsJob 9 Examples.tool = Err Proc.errNotAJob /\
  exists b', Proc.RunAsJob 9 (AsJob Examples.tool) = Ok b' /\ Proc.unstarted b'.
Proof.
  split.
  - refine (proj1 (RunAsJob_returns_wait_error 9 Examples.tool _) eq_refl).
    repeat split.
  - destruct (proj2 (RunAsJob_returns_wait_error 9 (AsJob Examples.tool)
                       ltac:(repeat split)) eq_refl) as (b' & Hb & Hu & _).
    exists b'. split; [exact Hb|exact Hu].
Defined.

(** ** The readiness polling and the signal *)

Section Polling.
Import Proc.

Lemma poll_bound_step sc s m s' :
  poll_inv s -> poll_bound s -> step sc s m = Some s' -> poll_bound s'.
Proof.
  intros HP [Hd Hw] Hs. unfold poll_bound.
  destruct m as [| |i|st]; simpl in Hs.
  - unfold runner_step in Hs. unfold poll_inv in HP.
    destruct (runner s) eqn:Hr.
    9: { destruct (once_step (ByDie e) o s) as [[o' s1]|] eqn:Ho; [|discriminate].
         destruct (once_step_polls _ _ _ _ _ Ho) as [Hw' Hd'].
         assert (exists r, s' = set_runner r s1) as [r ->]
             by (destruct o'; simplify_eq; eauto).
         simpl. rewrite Hw', Hd'. auto. }
    all: repeat case_match; simplify_eq; simpl.
    all: rewrite ?waited_app, ?dials_app; simpl; unfold dials in *; simpl.
    all: try match goal with H : (_ <? _) = true |- _ => apply Nat.ltb_lt in H end.
    all: unfold portCheckMaxAttempts, portCheckWaitTime in *.
    all: destruct_and?; split; lia.
  - unfold watcher_step in Hs.
    destruct (callbacks_polls (bin s)) as [[Hx1 Hx2] He].
    repeat case_match; simplify_eq; simpl;
      rewrite ?waited_app, ?dials_app, ?Hx1, ?Hx2, ?(proj1 (He _)), ?(proj2 (He _));
      split; lia.
  - unfold exit_step in Hs.
    destruct (callers s !! i) as [o|]; [|discriminate].
    destruct (once_step ByExit o s) as [[o' s1]|] eqn:Ho; [|discriminate].
    simplify_eq.
    destruct (once_step_polls _ _ _ _ _ Ho) as [Hw' Hd'].
    simpl. rewrite Hw', Hd'. auto.
  - repeat case_match; simplify_eq. simpl. auto.
Qed.

Lemma no_port_inv_step sc s m s' :
  port (bin s) = 0%Z -> no_port_inv s -> step sc s m = Some s' -> no_port_inv s'.
Proof.
  intros Hport (Hr & Hd & Hw) Hs. unfold no_port_inv.
  destruct m as [| |i|st]; simpl in Hs.
  - unfold runner_step in Hs.
    destruct (runner s) eqn:Hrs; try contradiction.
    7: { destruct (once_step (ByDie e) o s) as [[o' s1]|] eqn:Ho; [|discriminate].
         destruct (once_step_polls _ _ _ _ _ Ho) as [Hw' Hd'].
         assert (exists r, s' = set_runner r s1 /\
                   (r = after_die site \/ exists o'', r = RDie site e o'')) as (r & -> & Hr').
         { destruct o'; simplify_eq; eauto 6. }
         simpl. rewrite Hw', Hd'. split; [|auto].
         destruct Hr' as [->|[o'' ->]]; [destruct site; simpl; auto|exact Hr]. }
    all: repeat case_match; simplify_eq; simpl; auto.
    all: try (rewrite Hport in *; discriminate).
    all: rewrite ?waited_app, ?dials_app, ?Hd, ?Hw; simpl; auto.
  - unfold watcher_step in Hs.
    destruct (callbacks_polls (bin s)) as [[Hx1 Hx2] He].
    destruct (watcher s); try discriminate;
      [destruct (phase s); try discriminate; destruct (cmd (bin s)); try discriminate
      |destruct err; [destruct (negb (exiting (bin s)))|]
      |];
      simplify_eq; simpl;
      rewrite ?waited_app, ?dials_app, ?Hx1, ?Hx2, ?(proj1 (He _)), ?(proj2 (He _)), ?Hd, ?Hw;
      auto.
  - unfold exit_step in Hs.
    destruct (callers s !! i) as [o|] eqn:Hi; [|discriminate].
    destruct (once_step ByExit o s) as [[o' s1]|] eqn:Ho; [|discriminate].
    simplify_eq.
    destruct (once_step_frame _ _ _ _ _ Ho) as [Fph Fce Fru Fwa Fca Ffi Fdo Fcm Fen Fxc Fec].
    destruct (once_step_polls _ _ _ _ _ Ho) as [Hw' Hd'].
    simpl. rewrite Hw', Hd', Fru. auto.
  - destruct (phase s); simplify_eq. simpl. auto.
Qed.


Lemma ready_inv_step sc k s m s' :
  sc_dial sc k = None -> k < portCheckMaxAttempts ->
  poll_inv s -> ready_inv k s -> step sc s m = Some s' -> ready_inv k s'.
Proof.
  intros Hk Hlt HP (Hr & Hd & Hw) Hs. unfold ready_inv.
  destruct m as [| |i|st]; simpl in Hs.
  - unfold runner_step in Hs. unfold poll_inv in HP.
    destruct (runner s) as [| | | | | |i err|i err|site e o| | |] eqn:Hrs.
    9: { destruct (once_step (ByDie e) o s) as [[o' s1]|] eqn:Ho; [|discriminate].
         destruct (once_step_polls _ _ _ _ _ Ho) as [Hw' Hd'].
         assert (exists r, s' = set_runner r s1 /\
                   (r = after_die site \/ exists o'', r = RDie site e o'')) as (r & -> & Hr').
         { destruct o'; simplify_eq; eauto 6. }
         simpl. rewrite Hw', Hd'. split; [|auto].
         destruct Hr' as [->|[o'' ->]]; [destruct site; simpl; auto|exact Hr]. }
    7: { (* RLoop *)
         destruct HP as (HPw & HPd & _). simpl in Hr.
         destruct (Nat.ltb i portCheckMaxAttempts) eqn:Hi; injection Hs as <-; simpl.
         - rewrite waited_app, dials_app. simpl. rewrite HPw.
           unfold dials at 2. simpl.
           unfold portCheckWaitTime in *. repeat split; try lia.
         - apply Nat.ltb_ge in Hi. lia. }
    7: { (* RDial *)
         destruct HP as (HPw & HPd & _). simpl in Hr.
         destruct (sc_dial sc i) as [e|] eqn:Hdi; injection Hs as <-; simpl;
           rewrite waited_app, dials_app; simpl; unfold dials at 2; simpl.
         - assert (i <> k) by congruence. repeat split; lia.
         - repeat split; lia. }
    all: repeat match type of Hs with
                | context [match ?x with _ => _ end] => destruct x eqn:?
                | context [if ?x then _ else _] => destruct x eqn:?
                end; simplify_eq; simpl; rewrite ?waited_app, ?dials_app; simpl;
           unfold dials in *; simpl; rewrite ?Nat.add_0_r, ?Z.add_0_r.
    all: repeat split; auto; lia.
  - unfold watcher_step in Hs.
    destruct (callbacks_polls (bin s)) as [[Hx1 Hx2] He].
    destruct (watcher s); try discriminate;
      [destruct (phase s); try discriminate; destruct (cmd (bin s)); try discriminate
      |destruct err; [destruct (negb (exiting (bin s)))|]
      |];
      simplify_eq; simpl;
      rewrite ?waited_app, ?dials_app, ?Hx1, ?Hx2, ?(proj1 (He _)), ?(proj2 (He _));
      repeat split; auto; lia.
  - unfold exit_step in Hs.
    destruct (callers s !! i) as [o|] eqn:Hi; [|discriminate].
    destruct (once_step ByExit o s) as [[o' s1]|] eqn:Ho; [|discriminate].
    simplify_eq.
    destruct (once_step_frame _ _ _ _ _ Ho) as [Fph Fce Fru Fwa Fca Ffi Fdo Fcm Fen Fxc Fec].
    destruct (once_step_polls _ _ _ _ _ Ho) as [Hw' Hd'].
    simpl. rewrite Hw', Hd', Fru. auto.
  - destruct (phase s); simplify_eq. simpl. auto.
Qed.

End Polling.

(** X13: [Run] never dials more than 40 times and never waits for more than
    40 ticks of 2 seconds, whatever the port does; with port 0 it does not
    dial or wait at all. *)
Theorem polling_is_bounded (sc : Proc.Scenario) (b : Binary) (n : nat)
        (ms : list Proc.Move) (s : Proc.Sys) :
  Proc.exec sc (Proc.init b n) ms = Some s ->
  Proc.dials (Proc.trace s) <= 40 /\
  (Proc.waited (Proc.trace s) <= 80 * 1000000000)%Z /\
  (port b = 0%Z -> Proc.dials (Proc.trace s) = 0 /\ Proc.waited (Proc.trace s) = 0%Z).
Proof.
  intros Hx.
  assert (HB : Proc.poll_bound s).
  { apply (exec_invariant2 sc Proc.poll_inv Proc.poll_bound) with (ms := ms) (s := Proc.init b n);
      eauto using poll_inv_step, poll_bound_step.
    - apply poll_inv_init.
    - split; [unfold Proc.dials; simpl; lia|].
      simpl. unfold portCheckWaitTime, portCheckMaxAttempts. lia. }
  destruct HB as [Hd Hw]. unfold portCheckMaxAttempts, portCheckWaitTime in *.
  split; [exact Hd|]. split; [lia|].
  intros Hport.
  assert (HN : port (Proc.bin s) = 0%Z /\ Proc.no_port_inv s).
  { apply (exec_invariant sc (fun s => port (Proc.bin s) = 0%Z /\ Proc.no_port_inv s))
      with (ms := ms) (s := Proc.init b n); auto.
    - intros s0 m s1 [Hp0 Hn0] Hs. split; [|eapply no_port_inv_step; eauto].
      destruct (step_config _ _ _ _ Hs) as (_ & _ & Hp & _). congruence.
    - split; [exact Hport|]. repeat split. }
  destruct HN as (_ & _ & Hd0 & Hw0). auto.
Qed.

Lemma polling_is_bounded_witness :
  Proc.dials (Proc.trace (Examples.after Examples.closed_port
                            (WithPort 5432 Examples.watched) 0 Examples.run_to_timeout))
  <= 40.
Proof.
  refine (proj1 (polling_is_bounded Examples.closed_port (WithPort 5432 Examples.watched) 0
                   Examples.run_to_timeout _ _)).
  vm_compute. reflexivity.
Defined.

(** X14: if the dial of round [k] succeeds, [waitForPort] returns without
    [die]: at most [k + 1] dials and [k + 1] ticks. *)
Theorem port_opens_in_time (sc : Proc.Scenario) (b : Binary) (n k : nat)
        (ms : list Proc.Move) (s : Proc.Sys) :
  Proc.sc_dial sc k = None -> k < portCheckMaxAttempts ->
  Proc.exec sc (Proc.init b n) ms = Some s ->
  (forall e o, Proc.runner s <> Proc.RDie Proc.AtPort e o) /\
  Proc.dials (Proc.trace s) <= S k /\
  (Proc.waited (Proc.trace s) <= Z.of_nat (S k) * portCheckWaitTime)%Z.
Proof.
  intros Hk Hlt Hx.
  assert (HR : Proc.poll_inv s /\ Proc.ready_inv k s).
  { apply (exec_invariant sc (fun s => Proc.poll_inv s /\ Proc.ready_inv k s))
      with (ms := ms) (s := Proc.init b n); auto.
    - intros s0 m s1 [HP HRd] Hs. split; [eapply poll_inv_step; eauto|].
      eapply ready_inv_step; eauto.
    - split; [apply poll_inv_init|].
      split; [exact I|]. split; [unfold Proc.dials; simpl; lia|].
      simpl. unfold portCheckWaitTime. lia. }
  destruct HR as (_ & Hr & Hd & Hw). split; [|auto].
  intros e o Heq. rewrite Heq in Hr. exact Hr.
Qed.

Lemma port_opens_in_time_witness :
  Proc.dials (Proc.trace (Examples.after Examples.quiet (WithPort 5432 Examples.watched) 0
                            Examples.run_to_open_port)) <= 1.
Proof.
  refine (proj1 (proj2 (port_opens_in_time Examples.quiet (WithPort 5432 Examples.watched)
                          0 0 Examples.run_to_open_port _ eq_refl _ _))).
  - unfold portCheckMaxAttempts. lia.
  - vm_compute. reflexivity.
Defined.

Section Signal.
Import Proc.

Lemma once_step_at_signal k o s o' s' :
  once_step k o s = Some (o', s') -> at_signal o' = 1 -> has_process (bin s).
Proof.
  unfold once_step, has_process, isRunning. intros H Ho'.
  destruct o; repeat case_match; simplify_eq; simpl in *; try discriminate.
  all: match goal with
       | H : _ && _ = true |- _ => apply andb_true_iff in H as [? _]; eauto
       end.
Qed.

Lemma has_process_frame b b' : cmd b' = cmd b -> has_process b -> has_process b'.
Proof. unfold has_process. intros ->. auto. Qed.

Lemma signal_inv_step sc s m s' :
  signal_inv s -> step sc s m = Some s' -> signal_inv s'.
Proof.
  intros [H1 H2] Hs. unfold signal_inv.
  destruct m as [| |i|st]; simpl in Hs.
  - unfold runner_step in Hs.
    destruct (runner s) as [| | | | | |i err|i err|site e o| | |] eqn:Hrs.
    9: { destruct (once_step (ByDie e) o s) as [[o' s1]|] eqn:Ho; [|discriminate].
         destruct (once_step_frame _ _ _ _ _ Ho) as [Fph Fce Fru Fwa Fca Ffi Fdo Fcm Fen Fxc Fec].
         assert (Hsig := once_step_at_signal _ _ _ _ _ Ho).
         assert (exists r, s' = set_runner r s1 /\
                   ((r = after_die site /\ o' = OReturned) \/ r = RDie site e o'))
           as (r & -> & Hr').
         { destruct o'; simplify_eq; eauto 6. }
         unfold tally in *. simpl. rewrite Fph, Fca. rewrite Hrs in H2.
         split.
         - intros Hp. apply (has_process_frame _ _ (eq_sym Fcm)) in Hp.
           destruct (H1 Hp) as [Hph Hps]. split; [exact Hph|].
           simpl in Hps. subst site. destruct Hr' as [[-> _]| ->]; simpl; auto.
         - intros Ht. apply (has_process_frame _ _ Fcm).
           destruct Hr' as [[-> ->]| ->].
           + apply H2. destruct site; simpl in Ht; lia.
           + destruct (at_signal o') eqn:Ho'.
             * apply H2. simpl in Ht. lia.
             * apply Hsig. destruct o'; simpl in *; congruence. }
    all: unfold tally in *; rewrite Hrs in *; simpl in H1, H2.
    all: repeat match type of Hs with
                | context [match ?x with _ => _ end] => destruct x eqn:?
                | context [if ?x then _ else _] => destruct x eqn:?
                end; simplify_eq; simpl.
    all: try (split; [intros Hp; try (exfalso; apply H1 in Hp; tauto);
                      try (apply H1 in Hp; tauto)
                     |intros Ht; try (apply H2 in Ht; exact Ht)]).
    all: try (destruct Hp as (c' & Hc' & Hp'); simpl in Hc'; simplify_eq; simpl in *; discriminate).
    all: try (exfalso; apply H2 in Ht; apply H1 in Ht; tauto).
    all: try (split; [discriminate|exact I]).
    all: try (eexists; split; [reflexivity|reflexivity]).
    all: try (split; [apply H1|exact I]; destruct Hp as (c' & Hc' & Hp'); simplify_eq; eexists; eauto).
  - unfold watcher_step in Hs. unfold tally in *.
    destruct (watcher s); try discriminate;
      [destruct (phase s) eqn:Hph; try discriminate;
       destruct (cmd (bin s)) as [c|] eqn:Hc; try discriminate
      |destruct err; [destruct (negb (exiting (bin s)))|]
      |];
      simplify_eq; simpl; try (split; assumption).
    assert (Hiff : has_process (set_cmd (Some (mkCmd (cmd_Path c) (cmd_Args c) (cmd_Env c)
                                               (cmd_Process c) (Some st))) (bin s))
                   <-> has_process (bin s)).
    { unfold has_process. simpl. rewrite Hc. split.
      - intros (c' & [= <-] & Hp). eauto.
      - intros (c' & [= <-] & Hp). eauto. }
    rewrite Hiff. split; [|exact H2].
    intros Hp. destruct (H1 Hp) as [_ Hps]. split; [discriminate|exact Hps].
  - unfold exit_step in Hs.
    destruct (callers s !! i) as [o|] eqn:Hi; [|discriminate].
    destruct (once_step ByExit o s) as [[o' s1]|] eqn:Ho; [|discriminate].
    simplify_eq.
    destruct (once_step_frame _ _ _ _ _ Ho) as [Fph Fce Fru Fwa Fca Ffi Fdo Fcm Fen Fxc Fec].
    assert (Hsig := once_step_at_signal _ _ _ _ _ Ho).
    unfold tally in *. simpl. rewrite Fph, Fru, Fca. split.
    + intros Hp. apply (has_process_frame _ _ (eq_sym Fcm)) in Hp. auto.
    + intros Ht. apply (has_process_frame _ _ Fcm).
      pose proof (sum_list_insert at_signal (callers s) i o o' Hi) as Hsum.
      destruct (at_signal o') eqn:Ho'.
      * apply H2. lia.
      * apply Hsig. destruct o'; simpl in *; congruence.
  - destruct (phase s) eqn:Hph; simplify_eq. unfold tally in *. simpl. split; [|exact H2].
    intros Hp. destruct (H1 Hp) as [_ Hps]. split; [discriminate|exact Hps].
Qed.

Lemma signal_inv_init b n : cmd b = None -> signal_inv (init b n).
Proof.
  intros Hc. unfold signal_inv, has_process, tally. simpl. rewrite Hc. split.
  - intros (c & [=] & _).
  - assert (sum_list (at_signal <$> replicate n OEnter) = 0) as ->
        by (induction n; simpl; auto).
    lia.
Qed.

End Signal.

(** X15: [terminate] never calls [Signal] on a nil process: whoever stands
    before [b.cmd.Process.Signal], in [die] or in [Exit], finds a command
    with a process, and a child that was spawned. *)
Theorem terminate_has_a_process (sc : Proc.Scenario) (b : Binary) (n : nat)
        (ms : list Proc.Move) (s : Proc.Sys) :
  cmd b = None -> Proc.exec sc (Proc.init b n) ms = Some s ->
  ((exists site e, Proc.runner s = Proc.RDie site e Proc.OSignal) \/
   (exists i, Proc.callers s !! i = Some Proc.OSignal)) ->
  Proc.has_process (Proc.bin s) /\ Proc.phase s <> Proc.PNone.
Proof.
  intros Hc Hx Hat.
  assert (Hinv : Proc.signal_inv s).
  { eapply (exec_invariant sc Proc.signal_inv); eauto using signal_inv_step, signal_inv_init. }
  destruct Hinv as [H1 H2].
  assert (Hp : Proc.has_process (Proc.bin s)).
  { apply H2. unfold Proc.tally. destruct Hat as [(site & e & ->)|(i & Hi)]; simpl; [lia|].
    pose proof (sum_list_lookup_le Proc.at_signal _ _ _ Hi) as Hle. simpl in Hle. lia. }
  split; [exact Hp|]. apply H1, Hp.
Qed.

Lemma terminate_has_a_process_witness :
  Proc.callers (Examples.after Examples.quiet Examples.watched 1 Examples.exit_to_signal)
  = [Proc.OSignal] /\
  Proc.phase (Examples.after Examples.quiet Examples.watched 1 Examples.exit_to_signal)
  <> Proc.PNone.
Proof.
  split; [reflexivity|].
  refine (proj2 (terminate_has_a_process Examples.quiet Examples.watched 1
                   Examples.exit_to_signal _ eq_refl _ _)).
  - vm_compute. reflexivity.
  - right. exists 0. reflexivity.
Defined.

(** ** After the termination body *)

Section Spent.
Import Proc.

Lemma once_step_spent k o s o' s' :
  terminateOnce (bin s) = OnceDone ->
  before_signal o = 0 -> after_signal o = 0 ->
  once_step k o s = Some (o', s') -> s' = s /\ o' = OReturned.
Proof.
  intros Hd Hb Ha. unfold once_step.
  destruct o; simpl in *; try discriminate; rewrite ?Hd; intros; simplify_eq; auto.
Qed.

Lemma spent_step sc c x s m s' :
  once_inv s -> spent c x s -> step sc s m = Some s' -> spent c x s'.
Proof.
  intros Hinv (Hd & Hc & Hx) Hs. unfold spent.
  unfold once_inv in Hinv. rewrite Hd in Hinv. destruct Hinv as (Hb & Ha & _).
  unfold tally in Hb, Ha.
  destruct m as [| |i|st]; simpl in Hs.
  - unfold runner_step in Hs.
    destruct (runner s) as [| | | | | |i err|i err|site e o| | |] eqn:Hrs.
    9: { destruct (once_step (ByDie e) o s) as [[o' s1]|] eqn:Ho; [|discriminate].
         apply once_step_spent in Ho as [-> ->]; [|assumption|lia|lia].
         simplify_eq. simpl. auto. }
    all: repeat match type of Hs with
                | context [match ?x with _ => _ end] => destruct x eqn:?
                | context [if ?x then _ else _] => destruct x eqn:?
                end; simplify_eq; simpl; rewrite ?signal_calls_app; simpl;
           rewrite ?Nat.add_0_r; auto.
  - unfold watcher_step in Hs.
    destruct (watcher s); try discriminate;
      [destruct (phase s); try discriminate; destruct (cmd (bin s)); try discriminate
      |destruct err; [destruct (negb (exiting (bin s)))|]
      |];
      simplify_eq; simpl;
      rewrite ?signal_calls_app, ?signal_calls_runExitCallbacks,
        ?signal_calls_runErrorCallbacks, ?Nat.add_0_r; auto.
  - unfold exit_step in Hs.
    destruct (callers s !! i) as [o|] eqn:Hi; [|discriminate].
    destruct (once_step ByExit o s) as [[o' s1]|] eqn:Ho; [|discriminate].
    pose proof (sum_list_lookup_le before_signal _ _ _ Hi).
    pose proof (sum_list_lookup_le after_signal _ _ _ Hi).
    apply once_step_spent in Ho as [-> ->]; [|assumption|lia|lia].
    simplify_eq. simpl. auto.
  - destruct (phase s); simplify_eq. simpl. auto.
Qed.

Lemma once_step_die_flag e o s o' s' :
  match o with OSetExiting => False | _ => True end ->
  once_step (ByDie e) o s = Some (o', s') ->
  o' <> OSetExiting /\ callers s' = callers s /\ exiting (bin s') = exiting (bin s).
Proof.
  unfold once_step. intros Ho H.
  destruct o; try contradiction; repeat case_match; simplify_eq; simpl; auto.
Qed.

Lemma unasked_step sc s m s' :
  unasked s -> step sc s m = Some s' -> unasked s'.
Proof.
  intros (Hc & Hx & Hr) Hs. unfold unasked.
  destruct m as [| |i|st]; simpl in Hs.
  - unfold runner_step in Hs.
    destruct (runner s) as [| | | | | |i err|i err|site e o| | |] eqn:Hrs.
    9: { destruct (once_step (ByDie e) o s) as [[o' s1]|] eqn:Ho; [|discriminate].
         apply once_step_die_flag in Ho as (Ho' & Hc' & Hx'); [|exact Hr].
         assert (exists r, s' = set_runner r s1 /\
                   (r = after_die site \/ r = RDie site e o')) as (r & -> & Hr').
         { destruct o'; simplify_eq; eauto. }
         simpl. rewrite Hc', Hx'. repeat split; auto.
         destruct Hr' as [->| ->]; [destruct site; exact I|].
         destruct o'; auto. }
    all: repeat match type of Hs with
                | context [match ?x with _ => _ end] => destruct x eqn:?
                | context [if ?x then _ else _] => destruct x eqn:?
                end; simplify_eq; simpl; auto.
  - unfold watcher_step in Hs.
    destruct (watcher s); try discriminate;
      [destruct (phase s); try discriminate; destruct (cmd (bin s)); try discriminate
      |destruct err; [destruct (negb (exiting (bin s)))|]
      |];
      simplify_eq; simpl; auto.
  - unfold exit_step in Hs. rewrite Hc in Hs. rewrite lookup_nil in Hs. discriminate.
  - destruct (phase s); simplify_eq. simpl. auto.
Qed.

End Spent.

(** X16: once the termination body has run, no later [Exit] and no later
    [die] does anything: no signal is sent any more and the exiting flag
    is no longer written, on every schedule. *)
Theorem used_Once_disarms_Exit (sc : Proc.Scenario) (b : Binary) (n : nat)
        (ms1 ms2 : list Proc.Move) (s1 s2 : Proc.Sys) :
  Proc.unstarted b -> Proc.exec sc (Proc.init b n) ms1 = Some s1 ->
  terminateOnce (Proc.bin s1) = OnceDone ->
  Proc.exec sc s1 ms2 = Some s2 ->
  terminateOnce (Proc.bin s2) = OnceDone /\
  Proc.signal_calls (Proc.trace s2) = Proc.signal_calls (Proc.trace s1) /\
  Proc.signals (Proc.trace s2) <= Proc.signal_calls (Proc.trace s1) /\
  exiting (Proc.bin s2) = exiting (Proc.bin s1).
Proof.
  intros Hu Hx1 Hd Hx2.
  pose proof (reachable_once sc b n ms1 s1 Hu Hx1) as Ho.
  assert (H : Proc.spent (Proc.signal_calls (Proc.trace s1)) (exiting (Proc.bin s1)) s2).
  { apply (exec_invariant2 sc Proc.once_inv
             (Proc.spent (Proc.signal_calls (Proc.trace s1)) (exiting (Proc.bin s1))))
      with (ms := ms2) (s := s1); eauto using once_inv_step, spent_step.
    repeat split. exact Hd. }
  destruct H as (H1 & H2 & H3). repeat split; auto.
  rewrite <- H2. apply signals_le_calls.
Qed.

Lemma used_Once_disarms_Exit_witness :
  Proc.phase (Examples.after Examples.quiet Examples.watched 2
                (Examples.exit_unstarted ++ Examples.run_then_exit)) = Proc.PAlive /\
  Proc.callers (Examples.after Examples.quiet Examples.watched 2
                  (Examples.exit_unstarted ++ Examples.run_then_exit))
  = [Proc.OReturned; Proc.OReturned] /\
  Proc.signal_calls (Proc.trace (Examples.after Examples.quiet Examples.watched 2
                                   (Examples.exit_unstarted ++ Examples.run_then_exit))) = 0.
Proof.
  split; [reflexivity|]. split; [reflexivity|].
  refine (proj1 (proj2 (used_Once_disarms_Exit Examples.quiet Examples.watched 2
                          Examples.exit_unstarted Examples.run_then_exit
                          (Examples.after Examples.quiet Examples.watched 2
                             Examples.exit_unstarted) _ _ _ eq_refl _))).
  - repeat split.
  - vm_compute. reflexivity.
  - vm_compute. reflexivity.
Defined.

(** X17: [Run], [die], the watcher and [Exit] never write the name, the
    path, the port, the environment list, the arguments, the job flag or
    the callback lists of the handle; and when nobody calls [Exit], the
    exiting flag is never set: [die] does not set it. *)
Theorem Run_keeps_configuration (sc : Proc.Scenario) (b : Binary) (n : nat)
        (ms : list Proc.Move) (s : Proc.Sys) :
  Proc.exec sc (Proc.init b n) ms = Some s ->
  Proc.same_config b (Proc.bin s) /\
  (exiting b = false -> n = 0 -> exiting (Proc.bin s) = false).
Proof.
  intros Hx. split; [exact (exec_config sc ms _ _ Hx)|].
  intros He ->.
  assert (H : Proc.unasked s).
  { eapply (exec_invariant sc Proc.unasked); eauto using unasked_step. repeat split. exact He. }
  apply H.
Qed.

Lemma Run_keeps_configuration_witness :
  exiting (Proc.bin (Examples.after Examples.closed_port (WithPort 5432 Examples.watched) 0
                       Examples.run_to_timeout)) = false.
Proof.
  refine (proj2 (Run_keeps_configuration Examples.closed_port
                   (WithPort 5432 Examples.watched) 0 Examples.run_to_timeout _ _)
            eq_refl eq_refl).
  vm_compute. reflexivity.
Defined.

(** X18: [Run] on a binary that is no job and has no port returns as soon
    as the child is spawned: after the command is made, the two pipes are
    opened, the child is started and the watcher is created, it returns
    while the child is alive, with nothing logged and no callback called. *)
Theorem daemon_Run_returns_after_spawn (sc : Proc.Scenario) (b : Binary) (n : nat) :
  Proc.sc_stdoutPipe sc = None -> Proc.sc_stderrPipe sc = None ->
  Proc.sc_start sc = None -> port b = 0%Z -> job b = false ->
  exists s,
    Proc.exec sc (Proc.init b n) (replicate 7 Proc.MRun) = Some s /\
    Proc.runner s = Proc.RReturned /\ Proc.phase s = Proc.PAlive /\
    Proc.watcher s = Proc.WWait /\ Proc.trace s = [] /\
    Proc.isRunning (Proc.bin s) = true /\
    Proc.callers s = replicate n Proc.OEnter.
Proof.
  intros H1 H2 H3 H4 H5. eexists. split.
  - unfold Proc.init. simpl.
    repeat (unfold Proc.runner_step at 1; simpl; rewrite ?H1, ?H2, ?H3, ?H4, ?H5; simpl).
    reflexivity.
  - repeat split.
Qed.

Lemma daemon_Run_returns_after_spawn_witness :
  exists s,
    Proc.exec Examples.quiet (Proc.init Examples.watched 0) (replicate 7 Proc.MRun) = Some s /\
    Proc.runner s = Proc.RReturned /\ Proc.phase s = Proc.PAlive.
Proof.
  destruct (daemon_Run_returns_after_spawn Examples.quiet Examples.watched 0
              eq_refl eq_refl eq_refl eq_refl eq_refl) as (s & Hx & Hr & Hp & _).
  exists s. split; [exact Hx|]. split; [exact Hr|exact Hp].
Defined.
